(** * Agora Analytica: the Voikko tokenizer and the topic-word selector

    A shallow embedding of [agora_analytica/analytics/text.py]:
    [VoikkoTokenizer] (word extraction, stemming with a spelling fallback,
    rejection of noisy paragraphs, the stem and analysis caches) and
    [TextTopics] (comparison of two text collections by their mean LDA topic
    mixtures and the choice of a representative noun per topic).

    Python objects are mutated in place; here every method takes the object
    and returns it next to its result.  Library code the module calls
    (libvoikko, [str.lower], the character class [\w], numpy, pandas and the
    fitted scikit-learn model) is an interface: a type class whose fields are
    the calls the source makes. *)

From Stdlib Require Import Ascii QArith Lqa.
From stdpp Require Import base option list strings gmap sorting.


(** ** Interfaces to library code *)

(** One morphological analysis: the dict libvoikko returns, of which the
    source reads the keys [CLASS] (with [.get], so it may be absent) and
    [BASEFORM] (libvoikko always sets it). *)
Record morph := Morph { CLASS : option string; BASEFORM : string }.

#[global] Instance morph_eq_dec : EqDecision morph.
Proof. solve_decision. Defined.

(** [Voikko.analyze] and [Voikko.suggest]. *)
Class Voikko := {
  voikko_analyze : string → list morph;
  voikko_suggest : string → list string
}.

(** [str.lower], [str.splitlines] and the regular-expression class [\w]. *)
Class PyStr := {
  lower : string → string;
  splitlines : string → list string;
  word_char : ascii → bool
}.

(** Calls that reach libvoikko, in the order they are made (instrumentation:
    the source has no such field). *)
Inductive oracle_call :=
  | VoikkoAnalyze (word : string)
  | VoikkoSuggest (word : string).

Definition is_suggest (c : oracle_call) : bool :=
  match c with VoikkoSuggest _ => true | VoikkoAnalyze _ => false end.

(** ** VoikkoTokenizer *)

(** [stem_map] is the instance attribute; [analyze_cache] is the dict behind
    [@cached({})] on [analyze], restricted to this instance. *)
Record VoikkoTokenizer := {
  stem_map : gmap string string;
  analyze_cache : gmap string (list morph);
  oracle_log : list oracle_call
}.

Definition new_tokenizer : VoikkoTokenizer :=
  {| stem_map := ∅; analyze_cache := ∅; oracle_log := [] |}.

Definition err_treshold : Q := 1 # 2.

Definition set_stem (word stem : string) (self : VoikkoTokenizer) : VoikkoTokenizer :=
  {| stem_map := <[word := stem]> (stem_map self);
     analyze_cache := analyze_cache self;
     oracle_log := oracle_log self |}.

Definition log_call (c : oracle_call) (self : VoikkoTokenizer) : VoikkoTokenizer :=
  {| stem_map := stem_map self;
     analyze_cache := analyze_cache self;
     oracle_log := oracle_log self ++ [c] |}.

Definition FINNISH_STOPWORD_CLASSES : list string :=
  ["huudahdussana"; "seikkasana"; "lukusana"; "asemosana"; "sidesana";
   "suhdesana"; "kieltosana"].

(** [_class not in FINNISH_STOPWORD_CLASSES]; an absent class is [None],
    which is not in the list. *)
Definition not_stopword (m : morph) : bool :=
  match CLASS m with
  | None => true
  | Some c => negb (bool_decide (c ∈ FINNISH_STOPWORD_CLASSES))
  end.

(** *** The word pattern

    [regex_words] has one group with the alternatives [\w+-(?:\w+)+] and
    [\w{1,}], and outside the group a third alternative: a colon followed by
    any number of [\w].  [re.findall] scans left to right and, the pattern
    having one group, yields that group for every match: a run of word
    characters, extended over one dash when a word character follows it, or
    the empty string for a colon and the word characters after it.  The
    scanner below is that search written as an automaton whose state is the
    match in progress. *)
Inductive scan :=
  | Idle
  | Run (acc : string)
  | Dash (acc : string)
  | Compound (acc : string)
  | Colon.

Definition snoc_char (acc : string) (c : ascii) : string :=
  acc +:+ String c EmptyString.

Section tokenizer.
Context {voikko : Voikko} {pystr : PyStr}.

Definition scan_start (c : ascii) : scan :=
  if word_char c then Run (String c EmptyString)
  else if decide (c = ":"%char) then Colon
  else Idle.

Fixpoint findall_from (st : scan) (s : string) : list string :=
  match s with
  | EmptyString =>
      match st with
      | Idle => []
      | Run acc | Dash acc | Compound acc => [acc]
      | Colon => [EmptyString]
      end
  | String c s' =>
      match st with
      | Idle => findall_from (scan_start c) s'
      | Run acc =>
          if word_char c then findall_from (Run (snoc_char acc c)) s'
          else if decide (c = "-"%char) then findall_from (Dash acc) s'
          else acc :: findall_from (scan_start c) s'
      | Dash acc =>
          if word_char c
          then findall_from (Compound (snoc_char (snoc_char acc "-"%char) c)) s'
          else acc :: findall_from (scan_start c) s'
      | Compound acc =>
          if word_char c then findall_from (Compound (snoc_char acc c)) s'
          else acc :: findall_from (scan_start c) s'
      | Colon =>
          if word_char c then findall_from Colon s'
          else EmptyString :: findall_from (scan_start c) s'
      end
  end.

(** [re.findall(self.regex_words, s)] *)
Definition regex_words_findall (s : string) : list string := findall_from Idle s.

Definition nonempty (x : string) : bool := negb (bool_decide (x = EmptyString)).

(** The words [x] of [re.findall(self.regex_words, sentence.lower())] that
    are not the empty string. *)
Definition paragraph_words (sentence : string) : list string :=
  List.filter nonempty (regex_words_findall (lower sentence)).

(** *** analyze, _stem, tokenize_paragraph *)

(** [analyze] is memoised: libvoikko is called on a miss only. *)
Definition analyze (word : string) (self : VoikkoTokenizer)
  : list morph * VoikkoTokenizer :=
  match analyze_cache self !! word with
  | Some analysis => (analysis, self)
  | None =>
      let analysis := voikko_analyze word in
      (analysis,
       {| stem_map := stem_map self;
          analyze_cache := <[word := analysis]> (analyze_cache self);
          oracle_log := oracle_log self ++ [VoikkoAnalyze word] |})
  end.

(** The [for _word in analysis] loop with its fall-through: the lowercase
    base form of the first analysis outside the stopword classes, else the
    lowercase word. *)
Definition stem_of (word : string) (analysis : list morph) : string :=
  match List.find not_stopword analysis with
  | Some m => lower (BASEFORM m)
  | None => lower word
  end.

(** The nested function [_stem].  [err_count] is its [nonlocal] counter;
    [self_tokenize_paragraph] stands for the call
    [self.tokenize_paragraph(suggested, use_suggestions=False)]. *)
Definition _stem
    (self_tokenize_paragraph : string → VoikkoTokenizer → list string * VoikkoTokenizer)
    (use_suggestions : bool) (word : string)
    (err_count : nat) (self : VoikkoTokenizer)
  : list string * nat * VoikkoTokenizer :=
  match stem_map self !! word with
  | Some stemmed_word => ([stemmed_word], err_count, self)
  | None =>
      let '(analysis, self) := analyze word self in
      match analysis with
      | [] =>
          let err_count := S err_count in
          if use_suggestions then
            let self := log_call (VoikkoSuggest word) self in
            match voikko_suggest word with
            | suggested :: _ =>
                let '(r, self) := self_tokenize_paragraph suggested self in
                (r, err_count, self)
            | [] => ([lower word], err_count, set_stem word (lower word) self)
            end
          else ([lower word], err_count, set_stem word (lower word) self)
      | _ :: _ =>
          let stem := stem_of word analysis in
          ([stem], err_count, set_stem word stem self)
      end
  end.

(** [chain( *map(_stem, r))]: the star forces every [_stem] call before the
    chained result is read, so the counter is final when it is tested. *)
Fixpoint stem_words
    (rec : string → VoikkoTokenizer → list string * VoikkoTokenizer)
    (use_suggestions : bool) (words : list string)
    (err_count : nat) (self : VoikkoTokenizer)
  : list string * nat * VoikkoTokenizer :=
  match words with
  | [] => ([], err_count, self)
  | word :: words' =>
      let '(r, err_count, self) := _stem rec use_suggestions word err_count self in
      let '(rs, err_count, self) := stem_words rec use_suggestions words' err_count self in
      (r ++ rs, err_count, self)
  end.

(** [len(r) * self.err_treshold < err_count].  The product is a float, but
    half of a list length is exact in binary floating point, so the test is
    the same over the rationals. *)
Definition too_many_errors (r : list string) (err_count : nat) : bool :=
  if Qlt_le_dec (inject_Z (Z.of_nat (length r)) * err_treshold)
                (inject_Z (Z.of_nat err_count))
  then true else false.

(** The body of [tokenize_paragraph], open in its recursive call. *)
Definition tokenize_paragraph_with
    (rec : string → VoikkoTokenizer → list string * VoikkoTokenizer)
    (use_suggestions : bool) (sentence : string) (self : VoikkoTokenizer)
  : list string * VoikkoTokenizer :=
  let r := paragraph_words sentence in
  let '(r, err_count, self) := stem_words rec use_suggestions r 0 self in
  let r := List.filter nonempty r in
  if too_many_errors r err_count then ([], self) else (r, self).

(** The recursive call always passes [use_suggestions=False], and with
    that flag [_stem] never recurses: the recursion unfolds in two
    layers.  The inner layer's callback is never run
    (see [tokenize_paragraph_with_no_suggestions]). *)
Definition tokenize_paragraph_no_suggestions
  : string → VoikkoTokenizer → list string * VoikkoTokenizer :=
  tokenize_paragraph_with (λ _ self, ([], self)) false.

Definition tokenize_paragraph (use_suggestions : bool)
  : string → VoikkoTokenizer → list string * VoikkoTokenizer :=
  tokenize_paragraph_with tokenize_paragraph_no_suggestions use_suggestions.

(** [_stem] as it runs inside [tokenize_paragraph]. *)
Definition stem (use_suggestions : bool)
  : string → nat → VoikkoTokenizer → list string * nat * VoikkoTokenizer :=
  _stem tokenize_paragraph_no_suggestions use_suggestions.

(** *** Invariants of a tokenizer *)

(** The words passed to [Voikko.suggest] so far. *)
Definition suggest_calls (self : VoikkoTokenizer) : list string :=
  omap (λ c, match c with VoikkoSuggest w => Some w | VoikkoAnalyze _ => None end)
       (oracle_log self).

(** The analysis cache holds answers of the oracle. *)
Definition cache_ok (self : VoikkoTokenizer) : Prop :=
  ∀ word analysis,
    analyze_cache self !! word = Some analysis → analysis = voikko_analyze word.

(** Every cached stem is the one [_stem] computes from the oracle's
    analysis of its word. *)
Definition stems_ok (self : VoikkoTokenizer) : Prop :=
  ∀ word s,
    stem_map self !! word = Some s → s = stem_of word (voikko_analyze word).

Definition tokenizer_ok (self : VoikkoTokenizer) : Prop :=
  cache_ok self ∧ stems_ok self.

(** [self'] is a later state of [self]: still well formed, with at least
    the stems and the oracle calls of [self]. *)
Definition extends (self self' : VoikkoTokenizer) : Prop :=
  tokenizer_ok self'
  ∧ stem_map self ⊆ stem_map self'
  ∧ ∃ calls, oracle_log self' = oracle_log self ++ calls.

(** A word the oracle cannot analyse. *)
Definition unresolved (word : string) : Prop := voikko_analyze word = [].

#[global] Instance unresolved_dec word : Decision (unresolved word).
Proof. unfold unresolved. apply _. Defined.

(** The distinct words of a list that have no analysis and are not in the
    stem cache. *)
Definition uncached_unresolved (self : VoikkoTokenizer) (words : list string)
  : gset string :=
  list_to_set (filter (λ w, unresolved w ∧ stem_map self !! w = None) words).

(** A stopword-class analysis. *)
Definition stopword_class (m : morph) : Prop :=
  ∃ c, CLASS m = Some c ∧ c ∈ FINNISH_STOPWORD_CLASSES.

End tokenizer.

(** ** TextTopics *)

(** The fitted scikit-learn objects: [self._lda.components_], the
    vocabulary [self._count_vector.get_feature_names()], and
    [self._lda.transform(self._count_vector.transform(source)).mean(axis=0)].
    The count vectorizer was built with [tokenizer=self._tokenizer.tokenize],
    so the last call may run this tokenizer and leave new cache entries in
    it; it is given the tokenizer and returns it. *)
Class Sklearn := {
  components_ : list (list Q);
  get_feature_names : list string;
  transform_mean : list string → VoikkoTokenizer → list Q * VoikkoTokenizer
}.

(** [np.log] on a count, [ndarray.argsort], and
    [Series.sort_values(ascending=False)] on (index, value) rows, where
    [None] is pandas' missing value NaN.  Floats are read as the rationals
    they denote. *)
Class Numpy := {
  np_log : nat → Q;
  argsort : list Q → list nat;
  sort_values_desc : list (string * option Q) → list (string * option Q)
}.


Inductive exn :=
  | RuntimeError (msg : string)
  | ValueError
  | IndexError.

Inductive result (A : Type) :=
  | Ok (a : A)
  | Raise (e : exn).
Arguments Ok {A} a.
Arguments Raise {A} e.

(** The tokenizer and the dicts behind [@cached({})] on [_get_topics],
    [find_topic_word] and [_suitable_topic_word], restricted to this
    instance.  [topic_words] and [vector_words] are memoised too; they read
    the fitted model only, so their caches are not observable and are left
    out. *)
Record TextTopics := {
  _tokenizer : VoikkoTokenizer;
  _get_topics_cache : gmap (list string) (list Q);
  find_topic_word_cache : gmap (list string * nat) string;
  _suitable_topic_word_cache : gmap string bool
}.

Definition new_topics : TextTopics :=
  {| _tokenizer := new_tokenizer; _get_topics_cache := ∅;
     find_topic_word_cache := ∅; _suitable_topic_word_cache := ∅ |}.

Definition with_tokenizer (tk : VoikkoTokenizer) (self : TextTopics) : TextTopics :=
  {| _tokenizer := tk;
     _get_topics_cache := _get_topics_cache self;
     find_topic_word_cache := find_topic_word_cache self;
     _suitable_topic_word_cache := _suitable_topic_word_cache self |}.

(** [series.dropna()] on a series of texts. *)
Definition dropna (series : list (option string)) : list string := omap id series.

Definition newline : string := String "010"%char EmptyString.

(** ["\n\n".join(text)] *)
Definition join_paragraphs (text : list string) : string :=
  String.concat (newline +:+ newline) text.

(** [pd.Series(tokens).value_counts()] as the mapping from token to count. *)
Definition value_counts (tokens : list string) : gmap string nat :=
  foldr (λ w m, <[w := S (default 0%nat (m !! w))]> m) ∅ tokens.

(** Python's [sum] of a list of numbers. *)
Definition sum_Q (l : list Q) : Q := foldl Qplus 0%Q l.

(** One row of [a * b] for two series: pandas aligns them on the union of
    their indexes, and a label missing on either side gets NaN.  The product
    of two present values is exact here; the float product rounds it. *)
Definition mul_aligned (x y : option Q) : option (option Q) :=
  match x, y with
  | None, None => None
  | Some a, Some b => Some (Some (a * b)%Q)
  | _, _ => Some None
  end.

Definition series_mul (a b : gmap string Q) : gmap string (option Q) :=
  merge mul_aligned a b.

(** [np.argmax] and [np.argmin]: the first index of an extreme value;
    [ValueError] (here [None]) on an empty array. *)
Fixpoint argmax_from (best_i : nat) (best : Q) (i : nat) (l : list Q) : nat :=
  match l with
  | [] => best_i
  | x :: l' =>
      if Qlt_le_dec best x then argmax_from i x (S i) l'
      else argmax_from best_i best (S i) l'
  end.

Fixpoint argmin_from (best_i : nat) (best : Q) (i : nat) (l : list Q) : nat :=
  match l with
  | [] => best_i
  | x :: l' =>
      if Qlt_le_dec x best then argmin_from i x (S i) l'
      else argmin_from best_i best (S i) l'
  end.

Definition np_argmax (l : list Q) : option nat :=
  match l with [] => None | x :: l' => Some (argmax_from 0 x 1 l') end.

Definition np_argmin (l : list Q) : option nat :=
  match l with [] => None | x :: l' => Some (argmin_from 0 x 1 l') end.

(** [morph.get("CLASS") in ["nimi", "nimisana"]] *)
Definition is_noun (m : morph) : bool :=
  bool_decide (CLASS m ∈ [Some "nimi"; Some "nimisana"]).

(** Descending order on values with NaN last. *)
Definition score_ge (a b : option Q) : Prop :=
  match a, b with
  | _, None => True
  | None, Some _ => False
  | Some x, Some y => (y <= x)%Q
  end.

Section topics.
Context {voikko : Voikko} {pystr : PyStr} {sklearn : Sklearn} {numpy : Numpy}.

(** [tokenize]: [chain( *map(self.tokenize_paragraph, paragraphs))], every
    paragraph tokenized with the default [use_suggestions=True]. *)
Fixpoint tokenize_paragraphs (paragraphs : list string) (self : VoikkoTokenizer)
  : list string * VoikkoTokenizer :=
  match paragraphs with
  | [] => ([], self)
  | p :: ps =>
      let '(r, self) := tokenize_paragraph true p self in
      let '(rs, self) := tokenize_paragraphs ps self in
      (r ++ rs, self)
  end.

Definition tokenize (text : string) (self : VoikkoTokenizer)
  : list string * VoikkoTokenizer :=
  tokenize_paragraphs (splitlines text) self.

Definition vector_words : list string := get_feature_names.

(** [self._lda.components_[id][wid] / sum([x[wid] for x in self._lda.components_])].
    An index out of range is [None].  A zero total, where numpy gives nan
    or inf, is outside the model ([Qdiv] gives 0); the weights of a fitted
    LDA are positive. *)
Definition relevancy (id wid : nat) : option Q :=
  row ← components_ !! id;
  x ← row !! wid;
  column ← mapM (λ x : list Q, x !! wid) components_;
  Some (x / sum_Q column)%Q.

(** [topic_words]: the dict filled in the order
    [components_[id].argsort()[::-1]]. *)
Definition topic_words (id : nat) : option (gmap string Q) :=
  row ← components_ !! id;
  foldl (λ (r : option (gmap string Q)) (wid : nat),
           r ← r;
           word ← vector_words !! wid;
           rel ← relevancy id wid;
           Some (<[word := rel]> r))
        (Some ∅) (reverse (argsort row)).

(** [_get_topics], memoised on the tuple of texts. *)
Definition _get_topics (source : list string) (self : TextTopics)
  : list Q * TextTopics :=
  match _get_topics_cache self !! source with
  | Some topics => (topics, self)
  | None =>
      let '(topics, tk) := transform_mean source (_tokenizer self) in
      (topics,
       {| _tokenizer := tk;
          _get_topics_cache := <[source := topics]> (_get_topics_cache self);
          find_topic_word_cache := find_topic_word_cache self;
          _suitable_topic_word_cache := _suitable_topic_word_cache self |})
  end.

(** [_suitable_topic_word], memoised on the word. *)
Definition _suitable_topic_word (word : string) (self : TextTopics)
  : bool * TextTopics :=
  match _suitable_topic_word_cache self !! word with
  | Some b => (b, self)
  | None =>
      let '(analysis, tk) := analyze word (_tokenizer self) in
      let b := existsb is_noun analysis in
      (b,
       {| _tokenizer := tk;
          _get_topics_cache := _get_topics_cache self;
          find_topic_word_cache := find_topic_word_cache self;
          _suitable_topic_word_cache := <[word := b]> (_suitable_topic_word_cache self) |})
  end.

(** The loop [for word, c in counts.sort_values(ascending=False).iteritems()]. *)
Fixpoint first_suitable (walk : list (string * option Q)) (self : TextTopics)
  : option string * TextTopics :=
  match walk with
  | [] => (None, self)
  | (word, _) :: walk' =>
      let '(b, self) := _suitable_topic_word word self in
      if b then (Some word, self) else first_suitable walk' self
  end.

(** [counts = source.map(np.log) * words] *)
Definition combined_scores (source : gmap string nat) (words : gmap string Q)
  : gmap string (option Q) :=
  series_mul (np_log <$> source) words.

(** [find_topic_word], memoised on (texts, topic id); a call that raises
    leaves no cache entry.  The lines that only build the debug message are
    left out. *)
Definition find_topic_word (text : list string) (topic_id : nat) (self : TextTopics)
  : result string * TextTopics :=
  match find_topic_word_cache self !! (text, topic_id) with
  | Some word => (Ok word, self)
  | None =>
      let '(tokens, tk) := tokenize (join_paragraphs text) (_tokenizer self) in
      let self := with_tokenizer tk self in
      let source := value_counts tokens in
      match topic_words topic_id with
      | None => (Raise IndexError, self)
      | Some words =>
          let counts := combined_scores source words in
          match first_suitable (sort_values_desc (map_to_list counts)) self with
          | (Some word, self) =>
              (Ok word,
               {| _tokenizer := _tokenizer self;
                  _get_topics_cache := _get_topics_cache self;
                  find_topic_word_cache :=
                    <[(text, topic_id) := word]> (find_topic_word_cache self);
                  _suitable_topic_word_cache := _suitable_topic_word_cache self |})
          | (None, self) =>
              (Raise (RuntimeError "Could not find suitable topic word."), self)
          end
      end
  end.

(** [compare_series] on the two series.  The two mixtures have one entry per
    topic, so the difference pairs them up entry by entry.  The difference
    is the exact one; numpy's float subtraction rounds it.  Rounding keeps
    [a - b = -(b - a)] and [a - a = 0], but it can move the position of the
    extreme entry when two differences are closer than the rounding error,
    so nothing below relies on which exact difference is largest. *)
Definition compare_series (source target : list (option string)) (self : TextTopics)
  : result ((nat * string) * (nat * string)) * TextTopics :=
  let _source := dropna source in
  let _target := dropna target in
  let '(source_topics, self) := _get_topics _source self in
  let '(target_topics, self) := _get_topics _target self in
  let diffs := zip_with Qminus source_topics target_topics in
  match np_argmax diffs, np_argmin diffs with
  | Some topic_max, Some topic_min =>
      match find_topic_word _source topic_max self with
      | (Ok source_topic, self) =>
          match find_topic_word _target topic_min self with
          | (Ok target_topic, self) =>
              (Ok ((topic_max, source_topic), (topic_min, target_topic)), self)
          | (Raise e, self) => (Raise e, self)
          end
      | (Raise e, self) => (Raise e, self)
      end
  | _, _ => (Raise ValueError, self)
  end.

(** *** Invariants of a TextTopics object *)

(** What [_suitable_topic_word] computes on a miss of its cache, read off
    the oracle. *)
Definition suitable (word : string) : bool :=
  existsb is_noun (voikko_analyze word).

Definition suitable_ok (self : TextTopics) : Prop :=
  ∀ word b, _suitable_topic_word_cache self !! word = Some b → b = suitable word.

Definition topics_ok (self : TextTopics) : Prop :=
  tokenizer_ok (_tokenizer self) ∧ suitable_ok self.

(** What the model assumes of pandas' [sort_values(ascending=False)]: it
    permutes the rows, values in descending order and NaN last.  The order
    among equal values is left open, as it is by the quicksort pandas uses. *)
Definition sorts_descending : Prop :=
  ∀ rows, sort_values_desc rows ≡ₚ rows
          ∧ StronglySorted (λ a b, score_ge a.2 b.2) (sort_values_desc rows).

(** What the model assumes of numpy's [argsort]: it returns a permutation
    of the indices. *)
Definition argsort_permutes : Prop :=
  ∀ values, argsort values ≡ₚ seq 0 (length values).

(** A rectangular matrix of non-negative weights, one column per vocabulary
    word, the vocabulary without repetition. *)
Definition model_ok : Prop :=
  NoDup get_feature_names
  ∧ Forall (λ row, length row = length get_feature_names) components_
  ∧ Forall (Forall (λ x, 0 <= x)%Q) components_.

(** [sum([x[wid] for x in self._lda.components_])] for a column in range. *)
Definition column_total (wid : nat) : Q :=
  sum_Q (map (λ row : list Q, default 0%Q (row !! wid)) components_).

(** The rows [find_topic_word] walks, in the order it walks them. *)
Definition topic_word_walk (text : list string) (words : gmap string Q)
    (self : TextTopics) : list (string * option Q) :=
  let tokens := (tokenize (join_paragraphs text) (_tokenizer self)).1 in
  sort_values_desc (map_to_list (combined_scores (value_counts tokens) words)).

End topics.

(** ** Stub collaborators

    Small concrete instances of the interfaces, for running the model on
    examples: an oracle given by two tables, ASCII lower-casing and word
    characters, line splitting on the newline character, and insertion sorts
    for numpy's and pandas' sorting. *)

Definition table_lookup {A} (table : list (string * list A)) (word : string) : list A :=
  match List.find (λ row, bool_decide (row.1 = word)) table with
  | Some row => row.2
  | None => []
  end.

Definition stub_voikko (analyses : list (string * list morph))
    (suggestions : list (string * list string)) : Voikko :=
  {| voikko_analyze := table_lookup analyses;
     voikko_suggest := table_lookup suggestions |}.

Definition ascii_lower (c : ascii) : ascii :=
  let n := nat_of_ascii c in
  if (65 <=? n)%nat && (n <=? 90)%nat then ascii_of_nat (n + 32) else c.

Fixpoint string_lower (s : string) : string :=
  match s with
  | EmptyString => EmptyString
  | String c s' => String (ascii_lower c) (string_lower s')
  end.

Definition ascii_word_char (c : ascii) : bool :=
  let n := nat_of_ascii c in
  ((48 <=? n)%nat && (n <=? 57)%nat) || ((65 <=? n)%nat && (n <=? 90)%nat)
  || ((97 <=? n)%nat && (n <=? 122)%nat) || (n =? 95)%nat.

Fixpoint split_newlines (cur : string) (s : string) : list string :=
  match s with
  | EmptyString => if bool_decide (cur = EmptyString) then [] else [cur]
  | String c s' =>
      if bool_decide (c = "010"%char) then cur :: split_newlines EmptyString s'
      else split_newlines (snoc_char cur c) s'
  end.

Definition stub_str : PyStr :=
  {| lower := string_lower;
     splitlines := split_newlines EmptyString;
     word_char := ascii_word_char |}.

Definition score_geb (a b : option Q) : bool :=
  match a, b with
  | _, None => true
  | None, Some _ => false
  | Some x, Some y => if Qlt_le_dec x y then false else true
  end.

Fixpoint insert_desc (row : string * option Q) (l : list (string * option Q))
  : list (string * option Q) :=
  match l with
  | [] => [row]
  | row' :: l' =>
      if score_geb row.2 row'.2 then row :: l else row' :: insert_desc row l'
  end.

Definition insertion_sort_desc (l : list (string * option Q)) : list (string * option Q) :=
  foldr insert_desc [] l.

Fixpoint insert_index (values : list Q) (i : nat) (l : list nat) : list nat :=
  match l with
  | [] => [i]
  | j :: l' =>
      if Qlt_le_dec (default 0%Q (values !! j)) (default 0%Q (values !! i))
      then j :: insert_index values i l'
      else i :: l
  end.

Definition insertion_argsort (values : list Q) : list nat :=
  foldr (insert_index values) [] (seq 0 (length values)).

(** A stand-in for the natural logarithm with [stub_log 1 = 0], increasing. *)
Definition stub_log (n : nat) : Q := inject_Z (Z.of_nat (Nat.log2 n)).

Definition stub_numpy : Numpy :=
  {| np_log := stub_log;
     argsort := insertion_argsort;
     sort_values_desc := insertion_sort_desc |}.

(** A fitted model given by its component matrix, its vocabulary and a
    table of mean topic mixtures; the transform does not touch this
    tokenizer. *)
Definition stub_sklearn (components : list (list Q)) (vocabulary : list string)
    (mixtures : list (list string * list Q)) : Sklearn :=
  {| components_ := components;
     get_feature_names := vocabulary;
     transform_mean source tk :=
       (match List.find (λ row, bool_decide (row.1 = source)) mixtures with
        | Some row => row.2
        | None => []
        end, tk) |}.

(** An oracle that knows three Finnish word forms and corrects one
    misspelling. *)
Definition example_voikko : Voikko :=
  stub_voikko
    [("koirat", [Morph (Some "nimisana") "Koira"]);
     ("koira", [Morph (Some "nimisana") "koira"]);
     ("kissat", [Morph (Some "nimisana") "kissa"]);
     ("kissa", [Morph (Some "nimisana") "kissa"]);
     ("juoksivat", [Morph (Some "teonsana") "juosta"]);
     ("juosta", [Morph (Some "teonsana") "juosta"]);
     ("nopeasti", [Morph (Some "seikkasana") "nopea"])]
    [("kiorat", ["koirat"])].

(** Three topics over a vocabulary of three stems, and the mean topic
    mixtures of two one-text collections; their difference has a tie for the
    maximum. *)
Definition dog_texts : list string := ["Koirat koirat juoksivat nopeasti."].
Definition cat_texts : list string := ["kissat juoksivat"].

Definition example_sklearn : Sklearn :=
  stub_sklearn
    [[4; 1; 1]; [1; 4; 1]; [1; 1; 4]]%Q
    ["koira"; "juosta"; "kissa"]
    [(dog_texts, [1 # 2; 1 # 2; 0]%Q); (cat_texts, [1 # 4; 1 # 4; 1 # 2]%Q)].



(** A model whose vocabulary is the single stem "juosta". *)
Definition verb_sklearn : Sklearn :=
  stub_sklearn [[1]]%Q ["juosta"] [].

(** An oracle that knows no word; it suggests "abc" for "xyz" and "xyz" for
    "uvw". *)
Definition blind_voikko : Voikko :=
  stub_voikko [] [("xyz", ["abc"]); ("uvw", ["xyz"])].

(** An oracle that knows no word and suggests nothing. *)
Definition silent_voikko : Voikko := stub_voikko [] [].

(** ** Further notions used in the properties *)

(** The words passed to [Voikko.analyze] so far. *)
Definition analyze_calls (self : VoikkoTokenizer) : list string :=
  omap (λ c, match c with VoikkoAnalyze w => Some w | VoikkoSuggest _ => None end)
       (oracle_log self).

(** The oracle was asked to analyse no word twice, and every word it was
    asked about is in the analysis cache. *)
Definition log_ok (self : VoikkoTokenizer) : Prop :=
  NoDup (analyze_calls self)
  ∧ ∀ w, w ∈ analyze_calls self → is_Some (analyze_cache self !! w).

Definition dash : string := String "-"%char EmptyString.
Definition colon : string := String ":"%char EmptyString.

Section notions.
Context {voikko : Voikko} {pystr : PyStr}.

(** A string in the image of [str.lower]. *)
Definition lowered (s : string) : Prop := ∃ x, s = lower x.

(** The stem [_stem] computes for a word from the oracle's analysis. *)
Definition oracle_stem (word : string) : string :=
  stem_of word (voikko_analyze word).

Fixpoint all_word_chars (s : string) : bool :=
  match s with
  | EmptyString => true
  | String c s' => word_char c && all_word_chars s'
  end.

Fixpoint no_word_chars (s : string) : bool :=
  match s with
  | EmptyString => true
  | String c s' => negb (word_char c) && no_word_chars s'
  end.

(** A non-empty run of word characters. *)
Definition is_run (s : string) : Prop :=
  s ≠ EmptyString ∧ all_word_chars s = true.

(** Two runs joined by one dash. *)
Definition is_compound (s : string) : Prop :=
  ∃ a b, is_run a ∧ is_run b ∧ s = a +:+ dash +:+ b.

(** What a match of the word pattern can yield. *)
Definition is_token (s : string) : Prop :=
  s = EmptyString ∨ is_run s ∨ is_compound s.

(** The partial match a scanner state holds is well formed. *)
Definition scan_ok (st : scan) : Prop :=
  match st with
  | Idle | Colon => True
  | Run acc | Dash acc => is_run acc
  | Compound acc => is_compound acc
  end.

End notions.

(** * Properties *)

(** ** The tokenizer *)

Section tokenizer_facts.
Context {voikko : Voikko} {pystr : PyStr}.

Implicit Types (self : VoikkoTokenizer) (word : string) (err : nat).
Implicit Types rec : string → VoikkoTokenizer → list string * VoikkoTokenizer.

Lemma new_tokenizer_ok : tokenizer_ok new_tokenizer.
Proof. split; intros w x Hw; cbn in Hw; by rewrite lookup_empty in Hw. Qed.

Lemma analyze_fst word self :
  cache_ok self → (analyze word self).1 = voikko_analyze word.
Proof.
  intros Hc. unfold analyze.
  destruct (analyze_cache self !! word) as [a|] eqn:E; cbn; [|done].
  by apply Hc.
Qed.

Lemma analyze_stem_map word self :
  stem_map (analyze word self).2 = stem_map self.
Proof. unfold analyze. by destruct (analyze_cache self !! word). Qed.

Lemma analyze_cache_ok word self :
  cache_ok self → cache_ok (analyze word self).2.
Proof.
  intros Hc. unfold analyze.
  destruct (analyze_cache self !! word) as [a|] eqn:E; cbn; [done|].
  intros w a. cbn. rewrite lookup_insert.
  case_decide; [naive_solver | apply Hc].
Qed.

Lemma analyze_suggest_calls word self :
  suggest_calls (analyze word self).2 = suggest_calls self.
Proof.
  unfold analyze, suggest_calls.
  destruct (analyze_cache self !! word); cbn; [done|].
  by rewrite omap_app, app_nil_r.
Qed.

Lemma analyze_log_grows word self :
  ∃ calls, oracle_log (analyze word self).2 = oracle_log self ++ calls.
Proof.
  unfold analyze. destruct (analyze_cache self !! word); cbn.
  - exists []. by rewrite app_nil_r.
  - by eexists.
Qed.

Lemma analyze_ok word self :
  tokenizer_ok self → tokenizer_ok (analyze word self).2.
Proof.
  intros [Hc Hs]. split; [by apply analyze_cache_ok|].
  intros w s. rewrite analyze_stem_map. apply Hs.
Qed.

(** The four ways through [_stem]. *)
Lemma _stem_hit rec us word err self s :
  stem_map self !! word = Some s →
  _stem rec us word err self = ([s], err, self).
Proof. intros E. unfold _stem. by rewrite E. Qed.

Lemma _stem_analyzable rec us word err self :
  cache_ok self →
  stem_map self !! word = None →
  ¬ unresolved word →
  _stem rec us word err self =
    ([stem_of word (voikko_analyze word)], err,
     set_stem word (stem_of word (voikko_analyze word)) (analyze word self).2).
Proof.
  intros Hc E Hu. unfold _stem. rewrite E.
  pose proof (analyze_fst word self Hc) as Ha.
  destruct (analyze word self) as [a t]. cbn in Ha. subst a. cbn.
  unfold unresolved in Hu. by destruct (voikko_analyze word).
Qed.

Lemma _stem_fallback rec us word err self :
  cache_ok self →
  stem_map self !! word = None →
  unresolved word →
  us = false ∨ voikko_suggest word = [] →
  _stem rec us word err self =
    ([lower word], S err,
     set_stem word (lower word)
       (if us then log_call (VoikkoSuggest word) (analyze word self).2
        else (analyze word self).2)).
Proof.
  intros Hc E Hu Hs. unfold _stem. rewrite E.
  pose proof (analyze_fst word self Hc) as Ha.
  destruct (analyze word self) as [a t]. cbn in Ha. subst a. cbn.
  rewrite Hu. destruct us; [|done].
  destruct Hs as [|Hs]; [done|]. by rewrite Hs.
Qed.

Lemma _stem_suggested rec word err self suggested rest :
  cache_ok self →
  stem_map self !! word = None →
  unresolved word →
  voikko_suggest word = suggested :: rest →
  _stem rec true word err self =
    ((rec suggested (log_call (VoikkoSuggest word) (analyze word self).2)).1,
     S err,
     (rec suggested (log_call (VoikkoSuggest word) (analyze word self).2)).2).
Proof.
  intros Hc E Hu Hs. unfold _stem. rewrite E.
  pose proof (analyze_fst word self Hc) as Ha.
  destruct (analyze word self) as [a t]. cbn in Ha. subst a. cbn.
  rewrite Hu, Hs. by destruct (rec suggested _).
Qed.

Lemma _stem_inv rec us word err self :
  cache_ok self →
  (∃ s, stem_map self !! word = Some s)
  ∨ (stem_map self !! word = None ∧ ¬ unresolved word)
  ∨ (stem_map self !! word = None ∧ unresolved word
     ∧ (us = false ∨ voikko_suggest word = []))
  ∨ (stem_map self !! word = None ∧ unresolved word ∧ us = true
     ∧ ∃ suggested rest, voikko_suggest word = suggested :: rest).
Proof.
  intros _. destruct (stem_map self !! word) as [s|]; [by eauto|].
  right. destruct (decide (unresolved word)) as [Hu|Hu]; [|by eauto].
  right. destruct us; [|by eauto].
  destruct (voikko_suggest word) as [|s rest] eqn:Es; [by eauto|].
  right. by eauto 10.
Qed.

Lemma too_many_errors_spec (r : list string) err :
  too_many_errors r err = true ↔ length r < 2 * err.
Proof.
  unfold too_many_errors, err_treshold.
  destruct (Qlt_le_dec _ _) as [Hq|Hq];
    unfold Qlt, Qle in Hq; cbn in Hq; split; intros; try done; lia.
Qed.

Lemma too_many_errors_false (r : list string) err :
  too_many_errors r err = false ↔ 2 * err ≤ length r.
Proof.
  rewrite <- Nat.nlt_ge, <- too_many_errors_spec.
  destruct (too_many_errors r err); naive_solver.
Qed.

(** With [use_suggestions=False] the recursive call is dead code. *)
Lemma _stem_false_rec rec rec' word err self :
  _stem rec false word err self = _stem rec' false word err self.
Proof. done. Qed.

Lemma stem_words_false_rec rec rec' words err self :
  stem_words rec false words err self = stem_words rec' false words err self.
Proof.
  revert err self. induction words as [|w ws IH]; intros err self; [done|].
  cbn [stem_words]. rewrite (_stem_false_rec rec rec').
  destruct (_stem rec' false w err self) as [[r e] t]. by rewrite IH.
Qed.

Lemma tokenize_paragraph_with_no_suggestions rec sentence self :
  tokenize_paragraph_with rec false sentence self
  = tokenize_paragraph false sentence self.
Proof.
  unfold tokenize_paragraph, tokenize_paragraph_with.
  by rewrite (stem_words_false_rec rec tokenize_paragraph_no_suggestions).
Qed.

Lemma tokenize_paragraph_no_suggestions_eq sentence self :
  tokenize_paragraph_no_suggestions sentence self
  = tokenize_paragraph false sentence self.
Proof. apply tokenize_paragraph_with_no_suggestions. Qed.

(** *** Later states *)

Lemma extends_refl self : tokenizer_ok self → extends self self.
Proof. intros Hok. split_and!; [done..|]. exists []. by rewrite app_nil_r. Qed.

Lemma extends_trans self1 self2 self3 :
  extends self1 self2 → extends self2 self3 → extends self1 self3.
Proof.
  intros (_ & Hs1 & c1 & Hl1) (Hok & Hs2 & c2 & Hl2). split_and!; [done|by etrans|].
  exists (c1 ++ c2). by rewrite Hl2, Hl1, (assoc_L (++)).
Qed.

Lemma analyze_extends word self :
  tokenizer_ok self → extends self (analyze word self).2.
Proof.
  intros Hok. split_and!.
  - by apply analyze_ok.
  - by rewrite analyze_stem_map.
  - apply analyze_log_grows.
Qed.

Lemma log_call_extends c self :
  tokenizer_ok self → extends self (log_call c self).
Proof. intros [Hc Hs]. split_and!; [done|done|by eexists]. Qed.

Lemma set_stem_extends word self :
  tokenizer_ok self →
  stem_map self !! word = None →
  extends self (set_stem word (stem_of word (voikko_analyze word)) self).
Proof.
  intros [Hc Hs] E. split_and!.
  - split; [done|]. intros w s. cbn. rewrite lookup_insert.
    case_decide; [naive_solver | apply Hs].
  - cbn. by apply insert_subseteq.
  - exists []. cbn. by rewrite app_nil_r.
Qed.

Lemma stem_of_unresolved word : unresolved word → stem_of word (voikko_analyze word) = lower word.
Proof. unfold unresolved, stem_of. by intros ->. Qed.

Lemma _stem_extends rec us word err self :
  (∀ s t, tokenizer_ok t → extends t (rec s t).2) →
  tokenizer_ok self →
  extends self (_stem rec us word err self).2.
Proof.
  intros Hrec Hok. pose proof Hok as [Hc _].
  destruct (_stem_inv rec us word err self Hc)
    as [[s E]|[[E Hu]|[(E & Hu & Hs)|(E & Hu & -> & sg & rest & Hs)]]].
  - rewrite (_stem_hit _ _ _ _ _ s E). by apply extends_refl.
  - rewrite _stem_analyzable by done. cbn.
    eapply extends_trans; [by apply analyze_extends|].
    apply set_stem_extends; [by apply analyze_ok|by rewrite analyze_stem_map].
  - rewrite _stem_fallback by done. cbn.
    rewrite <- (stem_of_unresolved word Hu).
    eapply extends_trans; [by apply (analyze_extends word)|].
    destruct us.
    + eapply extends_trans; [by apply log_call_extends, analyze_ok|].
      apply set_stem_extends; [by apply log_call_extends, analyze_ok|].
      cbn. by rewrite analyze_stem_map.
    + apply set_stem_extends; [by apply analyze_ok|by rewrite analyze_stem_map].
  - rewrite (_stem_suggested _ _ _ _ sg rest) by done. cbn.
    eapply extends_trans; [by apply (analyze_extends word)|].
    eapply extends_trans; [by apply log_call_extends, analyze_ok|].
    by apply Hrec, log_call_extends, analyze_ok.
Qed.

Lemma stem_words_extends rec us words err self :
  (∀ s t, tokenizer_ok t → extends t (rec s t).2) →
  tokenizer_ok self →
  extends self (stem_words rec us words err self).2.
Proof.
  intros Hrec. revert err self.
  induction words as [|w ws IH]; intros err self Hok; [by apply extends_refl|].
  cbn [stem_words].
  pose proof (_stem_extends rec us w err self Hrec Hok) as Hw.
  destruct (_stem rec us w err self) as [[r e] t]. cbn in Hw.
  specialize (IH e t (proj1 Hw)).
  destruct (stem_words rec us ws e t) as [[rs e'] t']. cbn in *.
  by eapply extends_trans.
Qed.

Lemma tokenize_paragraph_with_snd rec us sentence self :
  (tokenize_paragraph_with rec us sentence self).2
  = (stem_words rec us (paragraph_words sentence) 0 self).2.
Proof.
  unfold tokenize_paragraph_with.
  destruct (stem_words rec us _ 0 self) as [[r e] t]. by destruct (too_many_errors _ _).
Qed.

Lemma tokenize_paragraph_with_extends rec us sentence self :
  (∀ s t, tokenizer_ok t → extends t (rec s t).2) →
  tokenizer_ok self →
  extends self (tokenize_paragraph_with rec us sentence self).2.
Proof.
  intros Hrec Hok. rewrite tokenize_paragraph_with_snd.
  by apply stem_words_extends.
Qed.

Lemma tokenize_paragraph_no_suggestions_extends sentence self :
  tokenizer_ok self →
  extends self (tokenize_paragraph_no_suggestions sentence self).2.
Proof.
  apply tokenize_paragraph_with_extends. intros _ t Ht. by apply extends_refl.
Qed.

Lemma tokenize_paragraph_extends us sentence self :
  tokenizer_ok self → extends self (tokenize_paragraph us sentence self).2.
Proof.
  apply tokenize_paragraph_with_extends.
  intros s t. apply tokenize_paragraph_no_suggestions_extends.
Qed.

Lemma stem_extends us word err self :
  tokenizer_ok self → extends self (stem us word err self).2.
Proof.
  apply _stem_extends. intros s t. apply tokenize_paragraph_no_suggestions_extends.
Qed.

(** *** What [_stem] returns for an analysable word *)

Lemma not_stopword_spec m : not_stopword m = true ↔ ¬ stopword_class m.
Proof.
  unfold not_stopword, stopword_class. destruct (CLASS m) as [c|].
  - rewrite negb_true_iff, bool_decide_eq_false. split.
    + intros Hc (c' & [= <-] & Hin). done.
    + intros Hn Hin. apply Hn. by exists c.
  - split; [|done]. by intros _ (c & [=] & _).
Qed.

Lemma stem_of_first word pre m post :
  Forall stopword_class pre → ¬ stopword_class m →
  stem_of word (pre ++ m :: post) = lower (BASEFORM m).
Proof.
  intros Hpre Hm. unfold stem_of.
  induction Hpre as [|a pre Ha _ IH]; cbn.
  - apply not_stopword_spec in Hm. by rewrite Hm.
  - destruct (not_stopword a) eqn:E; [|done].
    by apply not_stopword_spec in E.
Qed.

Lemma stem_of_all_stopwords word analysis :
  Forall stopword_class analysis → stem_of word analysis = lower word.
Proof.
  intros Hall. unfold stem_of.
  induction Hall as [|a l Ha _ IH]; cbn; [done|].
  destruct (not_stopword a) eqn:E; [|done].
  by apply not_stopword_spec in E.
Qed.

Lemma stem_cached_result us word err self :
  tokenizer_ok self →
  ¬ unresolved word ∨ us = false ∨ voikko_suggest word = []
    ∨ is_Some (stem_map self !! word) →
  (stem us word err self).1.1 = [stem_of word (voikko_analyze word)]
  ∧ stem_map (stem us word err self).2 !! word
    = Some (stem_of word (voikko_analyze word))
  ∧ ((¬ unresolved word ∨ is_Some (stem_map self !! word)) →
     (stem us word err self).1.2 = err).
Proof.
  intros Hok Hcase. pose proof Hok as [Hc Hs]. unfold stem.
  destruct (_stem_inv tokenize_paragraph_no_suggestions us word err self Hc)
    as [[s E]|[[E Hu]|[(E & Hu & Hf)|(E & Hu & -> & sg & rest & Hsg)]]].
  - rewrite (_stem_hit _ _ _ _ _ s E). cbn.
    pose proof (Hs _ _ E) as Hstem. by subst s.
  - rewrite _stem_analyzable by done. cbn. by rewrite lookup_insert_eq.
  - rewrite _stem_fallback by done. cbn.
    rewrite lookup_insert_eq, stem_of_unresolved by done.
    split_and!; [done..|]. intros [?|[? Hsome]]; [done|]. by rewrite E in Hsome.
  - destruct Hcase as [?|[?|[Hn|[? Hsome]]]]; [done|done|by rewrite Hn in Hsg|].
    by rewrite E in Hsome.
Qed.

(** *** Stemming with [use_suggestions=False] *)

Lemma suggest_calls_log_call c self :
  suggest_calls (log_call c self)
  = suggest_calls self
    ++ match c with VoikkoSuggest w => [w] | VoikkoAnalyze _ => [] end.
Proof. unfold suggest_calls. cbn. rewrite omap_app. by destruct c. Qed.

Lemma _stem_false_suggest_calls rec word err self :
  suggest_calls (_stem rec false word err self).2 = suggest_calls self.
Proof.
  unfold _stem. destruct (stem_map self !! word); [done|].
  pose proof (analyze_suggest_calls word self) as Ha.
  destruct (analyze word self) as [a t]. by destruct a.
Qed.

Lemma _stem_false_frame rec word err self k :
  k ≠ word →
  stem_map (_stem rec false word err self).2 !! k = stem_map self !! k.
Proof.
  intros Hk. unfold _stem. destruct (stem_map self !! word); [done|].
  pose proof (analyze_stem_map word self) as Ha.
  destruct (analyze word self) as [a t]. cbn in Ha.
  destruct a; cbn; by rewrite lookup_insert_ne, Ha.
Qed.

Lemma stem_words_false_suggest_calls rec words err self :
  suggest_calls (stem_words rec false words err self).2 = suggest_calls self.
Proof.
  revert err self. induction words as [|w ws IH]; intros err self; [done|].
  cbn [stem_words].
  pose proof (_stem_false_suggest_calls rec w err self) as Hw.
  destruct (_stem rec false w err self) as [[r e] t]. cbn in Hw.
  specialize (IH e t). destruct (stem_words rec false ws e t) as [[rs e'] t'].
  cbn in *. congruence.
Qed.

Lemma stem_words_false_frame rec words err self k :
  k ∉ words →
  stem_map (stem_words rec false words err self).2 !! k = stem_map self !! k.
Proof.
  revert err self. induction words as [|w ws IH]; intros err self Hk; [done|].
  apply not_elem_of_cons in Hk as [Hkw Hk]. cbn [stem_words].
  pose proof (_stem_false_frame rec w err self k Hkw) as Hw.
  destruct (_stem rec false w err self) as [[r e] t]. cbn in Hw.
  specialize (IH e t Hk). destruct (stem_words rec false ws e t) as [[rs e'] t'].
  cbn in *. congruence.
Qed.

Lemma tokenize_paragraph_false_suggest_calls sentence self :
  suggest_calls (tokenize_paragraph false sentence self).2 = suggest_calls self.
Proof.
  unfold tokenize_paragraph. rewrite tokenize_paragraph_with_snd.
  apply stem_words_false_suggest_calls.
Qed.

Lemma tokenize_paragraph_false_frame sentence self k :
  k ∉ paragraph_words sentence →
  stem_map (tokenize_paragraph false sentence self).2 !! k = stem_map self !! k.
Proof.
  unfold tokenize_paragraph. rewrite tokenize_paragraph_with_snd.
  apply stem_words_false_frame.
Qed.

(** A paragraph of one unresolved word, tokenized without suggestions. *)
Lemma tokenize_paragraph_false_single sentence self v :
  tokenizer_ok self →
  paragraph_words sentence = [v] →
  unresolved v →
  (stem_map self !! v = None →
     (tokenize_paragraph false sentence self).1 = []
     ∧ stem_map (tokenize_paragraph false sentence self).2 !! v = Some (lower v))
  ∧ (is_Some (stem_map self !! v) →
     (tokenize_paragraph false sentence self).1 = List.filter nonempty [lower v]).
Proof.
  intros [Hc Hs] Hv Hu.
  unfold tokenize_paragraph, tokenize_paragraph_with. rewrite Hv.
  cbn [stem_words]. split.
  - intros E. rewrite _stem_fallback by auto. cbn [app].
    assert (too_many_errors (List.filter nonempty [lower v]) 1 = true) as ->.
    { apply too_many_errors_spec. cbn. destruct (nonempty (lower v)); cbn; lia. }
    cbn. by rewrite lookup_insert_eq.
  - intros [s E]. rewrite (_stem_hit _ _ _ _ _ s E). cbn [app].
    pose proof (Hs _ _ E) as Hstem. rewrite stem_of_unresolved in Hstem by done.
    subst s.
    assert (too_many_errors (List.filter nonempty [lower v]) 0 = false) as ->.
    { apply too_many_errors_false. lia. }
    done.
Qed.

(** *** Stemming a misspelled word that has a suggestion *)

Lemma stem_misspelled word err self suggested rest :
  tokenizer_ok self →
  stem_map self !! word = None →
  unresolved word →
  voikko_suggest word = suggested :: rest →
  let self0 := log_call (VoikkoSuggest word) (analyze word self).2 in
  stem true word err self
  = ((tokenize_paragraph false suggested self0).1, S err,
     (tokenize_paragraph false suggested self0).2)
  ∧ tokenizer_ok self0
  ∧ stem_map self0 = stem_map self
  ∧ suggest_calls self0 = suggest_calls self ++ [word].
Proof.
  intros Hok E Hu Hsg self0. pose proof Hok as [Hc _]. split_and!.
  - unfold stem. rewrite (_stem_suggested _ _ _ _ suggested rest) by done.
    by rewrite tokenize_paragraph_no_suggestions_eq.
  - by apply log_call_extends, analyze_ok.
  - unfold self0. cbn. by rewrite analyze_stem_map.
  - unfold self0. by rewrite suggest_calls_log_call, analyze_suggest_calls.
Qed.

Lemma stem_misspelled_step word err self suggested rest :
  tokenizer_ok self →
  stem_map self !! word = None →
  unresolved word →
  voikko_suggest word = suggested :: rest →
  word ∉ paragraph_words suggested →
  stem_map (stem true word err self).2 !! word = None
  ∧ (∀ k, k ∉ paragraph_words suggested →
          stem_map (stem true word err self).2 !! k = stem_map self !! k)
  ∧ (stem true word err self).1.2 = S err
  ∧ suggest_calls (stem true word err self).2 = suggest_calls self ++ [word]
  ∧ tokenizer_ok (stem true word err self).2.
Proof.
  intros Hok E Hu Hsg Hnot.
  destruct (stem_misspelled word err self suggested rest Hok E Hu Hsg)
    as (-> & Hok0 & Hm0 & Hs0). cbn.
  assert (∀ k, k ∉ paragraph_words suggested →
            stem_map (tokenize_paragraph false suggested
                       (log_call (VoikkoSuggest word) (analyze word self).2)).2 !! k
            = stem_map self !! k) as Hframe.
  { intros k Hk. by rewrite tokenize_paragraph_false_frame, Hm0. }
  split_and!; [by rewrite Hframe|done|done| |].
  - by rewrite tokenize_paragraph_false_suggest_calls.
  - by apply tokenize_paragraph_extends.
Qed.

(** *** Paragraphs of analysable words *)

Lemma stem_words_known us words err self :
  tokenizer_ok self →
  Forall (λ w, ¬ unresolved w) words →
  (stem_words tokenize_paragraph_no_suggestions us words err self).1
  = (map (λ w, stem_of w (voikko_analyze w)) words, err).
Proof.
  revert err self. induction words as [|w ws IH]; intros err self Hok Hall; [done|].
  apply Forall_cons in Hall as [Hw Hall]. cbn [stem_words map].
  destruct (stem_cached_result us w err self Hok) as (Hr & _ & He); [by left|].
  pose proof (stem_extends us w err self Hok) as (Hok' & _).
  unfold stem in *.
  destruct (_stem tokenize_paragraph_no_suggestions us w err self) as [[r e] t].
  cbn in *. assert (e = err) as -> by (apply He; by left). subst r.
  specialize (IH err t Hok' Hall).
  destruct (stem_words tokenize_paragraph_no_suggestions us ws err t) as [[rs e'] t'].
  cbn in *. by simplify_eq.
Qed.

Lemma tokenize_paragraph_known us sentence self :
  tokenizer_ok self →
  Forall (λ w, ¬ unresolved w) (paragraph_words sentence) →
  (tokenize_paragraph us sentence self).1
  = List.filter nonempty
      (map (λ w, stem_of w (voikko_analyze w)) (paragraph_words sentence)).
Proof.
  intros Hok Hall. unfold tokenize_paragraph, tokenize_paragraph_with.
  pose proof (stem_words_known us _ 0 self Hok Hall) as Hw.
  destruct (stem_words _ us _ 0 self) as [[r e] t]. cbn in Hw. simplify_eq.
  assert (too_many_errors
            (List.filter nonempty
               (map (λ w, stem_of w (voikko_analyze w)) (paragraph_words sentence))) 0
          = false) as ->; [|done].
  apply too_many_errors_false. lia.
Qed.

(** *** What the error counter counts *)

Lemma _stem_err_count rec us word err self :
  cache_ok self →
  (_stem rec us word err self).1.2
  = if decide (stem_map self !! word = None ∧ unresolved word) then S err else err.
Proof.
  intros Hc.
  destruct (_stem_inv rec us word err self Hc)
    as [[s E]|[[E Hu]|[(E & Hu & Hs)|(E & Hu & -> & sg & rest & Hs)]]].
  - rewrite (_stem_hit _ _ _ _ _ s E). cbn. case_decide as Hd; [|done].
    destruct Hd as [Hd _]. by rewrite E in Hd.
  - rewrite _stem_analyzable by done. cbn. case_decide as Hd; [|done]. by destruct Hd.
  - rewrite _stem_fallback by done. cbn. case_decide as Hd; [done|]. by destruct Hd.
  - rewrite (_stem_suggested _ _ _ _ sg rest) by done. cbn.
    case_decide as Hd; [done|]. by destruct Hd.
Qed.

Lemma elem_of_uncached_unresolved self words w :
  w ∈ uncached_unresolved self words
  ↔ w ∈ words ∧ unresolved w ∧ stem_map self !! w = None.
Proof.
  unfold uncached_unresolved. rewrite elem_of_list_to_set, list_elem_of_filter.
  tauto.
Qed.

Lemma uncached_unresolved_skip self word words :
  ¬ (unresolved word ∧ stem_map self !! word = None) →
  uncached_unresolved self (word :: words) = uncached_unresolved self words.
Proof. intros Hn. unfold uncached_unresolved. by rewrite filter_cons_False. Qed.

Lemma uncached_unresolved_insert self self' word stem' words :
  stem_map self' = <[word := stem']> (stem_map self) →
  uncached_unresolved self' words = uncached_unresolved self words ∖ {[word]}.
Proof.
  intros Hm. apply set_eq. intros w.
  rewrite elem_of_difference, !elem_of_uncached_unresolved, Hm, elem_of_singleton.
  rewrite lookup_insert. case_decide as Hw; subst.
  - split; [by intros (_ & _ & ?)|]. by intros (_ & []).
  - split; [|tauto]. intros Hx. split; [done|]. by intros ->.
Qed.

Lemma stem_words_err_count us words err self :
  tokenizer_ok self →
  us = false ∨ Forall (λ w, unresolved w → voikko_suggest w = []) words →
  (stem_words tokenize_paragraph_no_suggestions us words err self).1.2
  = err + size (uncached_unresolved self words).
Proof.
  revert err self. induction words as [|w ws IH]; intros err self Hok Hsg.
  { cbn. unfold uncached_unresolved. cbn. rewrite size_empty. lia. }
  assert (us = false ∨ Forall (λ w, unresolved w → voikko_suggest w = []) ws) as Hsg'.
  { destruct Hsg as [|Hsg]; [by left|]. right. by apply Forall_cons in Hsg as [_ ?]. }
  pose proof Hok as [Hc _].
  pose proof (stem_extends us w err self Hok) as (Hok' & _).
  cbn [stem_words]. unfold stem in Hok'.
  destruct (_stem_inv tokenize_paragraph_no_suggestions us w err self Hc)
    as [[s E]|[[E Hu]|[(E & Hu & Hs)|(E & Hu & -> & sg & rest & Hs)]]].
  - rewrite (_stem_hit _ _ _ _ _ s E) in Hok' |- *. cbn [fst snd] in Hok'.
    specialize (IH err self Hok Hsg').
    destruct (stem_words _ us ws err self) as [[rs e'] t']. cbn [fst snd] in *.
    rewrite uncached_unresolved_skip; [done|]. intros [_ Hn]. by rewrite E in Hn.
  - rewrite _stem_analyzable in Hok' |- * by done. cbn [fst snd] in Hok'.
    specialize (IH err _ Hok' Hsg').
    destruct (stem_words _ us ws err _) as [[rs e'] t']. cbn [fst snd] in *.
    rewrite IH, uncached_unresolved_skip by tauto.
    erewrite (uncached_unresolved_insert (analyze w self).2); [|done].
    f_equal. f_equal. apply set_eq. intros x.
    rewrite elem_of_difference, !elem_of_uncached_unresolved, elem_of_singleton.
    rewrite analyze_stem_map. split; [tauto|]. intros (Hx & Hux & Hm).
    split; [done|]. by intros ->.
  - rewrite _stem_fallback in Hok' |- * by done. cbn [fst snd] in Hok'.
    specialize (IH (S err) _ Hok' Hsg').
    destruct (stem_words _ us ws (S err) _) as [[rs e'] t']. cbn [fst snd] in *.
    rewrite IH.
    erewrite (uncached_unresolved_insert self _ w (lower w)).
    2:{ cbn. destruct us; cbn; by rewrite analyze_stem_map. }
    assert (uncached_unresolved self (w :: ws)
            = {[w]} ∪ (uncached_unresolved self ws ∖ {[w]})) as ->.
    { apply set_eq. intros x.
      rewrite elem_of_union, elem_of_difference, !elem_of_uncached_unresolved,
        elem_of_singleton, elem_of_cons.
      destruct (decide (x = w)) as [->|]; [tauto|]. tauto. }
    rewrite (size_union {[w]} (uncached_unresolved self ws ∖ {[w]})).
    2:{ apply disjoint_singleton_l. rewrite not_elem_of_difference. right.
        by apply elem_of_singleton. }
    rewrite size_singleton. lia.
  - destruct Hsg as [|Hsg]; [done|]. apply Forall_cons in Hsg as [Hw _].
    rewrite Hw in Hs by done. done.
Qed.

End tokenizer_facts.

(** ** Arithmetic of the numeric layer *)






Lemma foldl_Qplus_acc a l : (foldl Qplus a l == a + sum_Q l)%Q.
Proof.
  unfold sum_Q. revert a. induction l as [|x l IH]; intros a; cbn; [lra|].
  rewrite (IH (a + x)%Q), (IH (0 + x)%Q). lra.
Qed.

Lemma sum_Q_cons x l : (sum_Q (x :: l) == x + sum_Q l)%Q.
Proof. unfold sum_Q at 1. cbn. rewrite foldl_Qplus_acc. lra. Qed.

Lemma sum_Q_nonneg l : Forall (λ x, 0 <= x)%Q l → (0 <= sum_Q l)%Q.
Proof.
  induction 1 as [|x l Hx _ IH]; [by cbn|]. rewrite sum_Q_cons. lra.
Qed.

Lemma sum_Q_ge_elem l i x :
  Forall (λ x, 0 <= x)%Q l → l !! i = Some x → (x <= sum_Q l)%Q.
Proof.
  intros Hl. revert i. induction Hl as [|y l Hy Hl IH]; intros i Hi; [done|].
  rewrite sum_Q_cons. pose proof (sum_Q_nonneg l Hl).
  destruct i as [|i]; cbn in Hi.
  - injection Hi as ->. lra.
  - specialize (IH i Hi). lra.
Qed.

Lemma sum_Q_map_div l total :
  (sum_Q (map (λ x, x / total) l) == sum_Q l / total)%Q.
Proof.
  induction l as [|x l IH]; cbn [map].
  - unfold sum_Q, Qdiv. cbn. ring.
  - rewrite !sum_Q_cons, IH. unfold Qdiv. ring.
Qed.

(** ** The topic-word selector *)

Section topics_facts.
Context {voikko : Voikko} {pystr : PyStr} {sklearn : Sklearn} {numpy : Numpy}.

Implicit Types self : TextTopics.

Lemma new_topics_ok : topics_ok new_topics.
Proof.
  split; [apply new_tokenizer_ok|]. intros w b Hw. cbn in Hw.
  by rewrite lookup_empty in Hw.
Qed.

Lemma tokenize_paragraphs_ok paragraphs tk :
  tokenizer_ok tk → tokenizer_ok (tokenize_paragraphs paragraphs tk).2.
Proof.
  revert tk. induction paragraphs as [|p ps IH]; intros tk Hok; [done|].
  cbn [tokenize_paragraphs].
  pose proof (tokenize_paragraph_extends true p tk Hok) as (Hok' & _).
  destruct (tokenize_paragraph true p tk) as [r t]. cbn in Hok'.
  specialize (IH t Hok'). by destruct (tokenize_paragraphs ps t).
Qed.

Lemma tokenize_ok text tk : tokenizer_ok tk → tokenizer_ok (tokenize text tk).2.
Proof. apply tokenize_paragraphs_ok. Qed.


Lemma _suitable_topic_word_spec word self :
  topics_ok self →
  (_suitable_topic_word word self).1 = suitable word
  ∧ topics_ok (_suitable_topic_word word self).2.
Proof.
  intros [Hok Hs]. unfold _suitable_topic_word.
  destruct (_suitable_topic_word_cache self !! word) as [b|] eqn:E.
  { split; [by apply Hs|done]. }
  pose proof (analyze_fst word _ (proj1 Hok)) as Ha.
  pose proof (analyze_ok word _ Hok) as Hok'.
  destruct (analyze word (_tokenizer self)) as [a tk]. cbn in Ha, Hok'. subst a.
  split; [done|]. split; [done|]. intros w b. cbn. rewrite lookup_insert.
  case_decide; [naive_solver | apply Hs].
Qed.

Lemma _suitable_topic_word_frame word self :
  _get_topics_cache (_suitable_topic_word word self).2 = _get_topics_cache self
  ∧ find_topic_word_cache (_suitable_topic_word word self).2
    = find_topic_word_cache self.
Proof.
  unfold _suitable_topic_word.
  destruct (_suitable_topic_word_cache self !! word); [done|].
  by destruct (analyze word (_tokenizer self)).
Qed.

Lemma first_suitable_frame walk self :
  _get_topics_cache (first_suitable walk self).2 = _get_topics_cache self
  ∧ find_topic_word_cache (first_suitable walk self).2 = find_topic_word_cache self.
Proof.
  revert self. induction walk as [|[w sc] walk IH]; intros self; [done|].
  cbn [first_suitable].
  pose proof (_suitable_topic_word_frame w self) as [Hg Hf].
  destruct (_suitable_topic_word w self) as [b t]. cbn in Hg, Hf.
  destruct b; [done|]. destruct (IH t) as [-> ->]. done.
Qed.

(** The loop returns the first suitable word of the walk, if there is one. *)
Lemma first_suitable_spec walk self :
  topics_ok self →
  match (first_suitable walk self).1 with
  | Some word =>
      ∃ before score after,
        walk = before ++ (word, score) :: after
        ∧ Forall (λ row, suitable row.1 = false) before
        ∧ suitable word = true
  | None => Forall (λ row, suitable row.1 = false) walk
  end.
Proof.
  revert self. induction walk as [|[w sc] walk IH]; intros self Hok; [by cbn|].
  cbn [first_suitable].
  pose proof (_suitable_topic_word_spec w self Hok) as [Hb Hok'].
  destruct (_suitable_topic_word w self) as [b t]. cbn in Hb, Hok'. subst b.
  destruct (suitable w) eqn:Ew.
  - cbn. by exists [], sc, walk.
  - specialize (IH t Hok'). destruct (first_suitable walk t) as [[word|] t']; cbn in *.
    + destruct IH as (before & score & after & -> & Hbefore & Hword).
      exists ((w, sc) :: before), score, after. split_and!; [done| |done].
      by constructor.
    + by constructor.
Qed.

Lemma find_topic_word_hit text topic_id self word :
  find_topic_word_cache self !! (text, topic_id) = Some word →
  find_topic_word text topic_id self = (Ok word, self).
Proof. intros E. unfold find_topic_word. by rewrite E. Qed.

Lemma find_topic_word_miss text topic_id self words :
  find_topic_word_cache self !! (text, topic_id) = None →
  topic_words topic_id = Some words →
  (find_topic_word text topic_id self).1
  = match (first_suitable (topic_word_walk text words self)
             (with_tokenizer (tokenize (join_paragraphs text) (_tokenizer self)).2
                self)).1 with
    | Some word => Ok word
    | None => Raise (RuntimeError "Could not find suitable topic word.")
    end.
Proof.
  intros E Hw. unfold find_topic_word, topic_word_walk. rewrite E, Hw.
  destruct (tokenize (join_paragraphs text) (_tokenizer self)) as [tokens tk].
  cbn [fst snd]. by destruct (first_suitable _ _) as [[w|] t].
Qed.

(** A successful call leaves its answer in the cache and removes nothing
    from the caches. *)
Lemma find_topic_word_post text topic_id self word self' :
  find_topic_word text topic_id self = (Ok word, self') →
  find_topic_word_cache self' !! (text, topic_id) = Some word
  ∧ find_topic_word_cache self ⊆ find_topic_word_cache self'
  ∧ _get_topics_cache self' = _get_topics_cache self.
Proof.
  unfold find_topic_word.
  destruct (find_topic_word_cache self !! (text, topic_id)) as [w|] eqn:E.
  { intros [= <- <-]. done. }
  destruct (tokenize (join_paragraphs text) (_tokenizer self)) as [tokens tk].
  destruct (topic_words topic_id) as [words|]; [|done].
  pose proof (first_suitable_frame
                (sort_values_desc
                   (map_to_list (combined_scores (value_counts tokens) words)))
                (with_tokenizer tk self)) as [Hg Hf].
  destruct (first_suitable _ _) as [[w|] t]; [|done].
  intros [= <- <-]. cbn in *. split_and!.
  - by rewrite lookup_insert_eq.
  - rewrite Hf. by apply insert_subseteq.
  - done.
Qed.

Lemma _get_topics_hit source self topics :
  _get_topics_cache self !! source = Some topics →
  _get_topics source self = (topics, self).
Proof. intros E. unfold _get_topics. by rewrite E. Qed.

Lemma _get_topics_post source self :
  _get_topics_cache (_get_topics source self).2 !! source
    = Some (_get_topics source self).1
  ∧ _get_topics_cache self ⊆ _get_topics_cache (_get_topics source self).2.
Proof.
  unfold _get_topics. destruct (_get_topics_cache self !! source) as [v|] eqn:E.
  { done. }
  destruct (transform_mean source (_tokenizer self)) as [v tk]. cbn. split.
  - by rewrite lookup_insert_eq.
  - by apply insert_subseteq.
Qed.

(** *** The relevancy table *)

Lemma mapM_column (matrix : list (list Q)) wid :
  Forall (λ row, wid < length row) matrix →
  mapM (λ row : list Q, row !! wid) matrix
  = Some (map (λ row : list Q, default 0%Q (row !! wid)) matrix).
Proof.
  induction 1 as [|row matrix Hrow _ IH]; [done|].
  cbn. apply lookup_lt_is_Some in Hrow as [x Hx]. rewrite Hx. cbn.
  by rewrite IH.
Qed.

Lemma relevancy_in_range id wid row word :
  model_ok →
  components_ !! id = Some row →
  get_feature_names !! wid = Some word →
  relevancy id wid = Some (default 0%Q (row !! wid) / column_total wid)%Q.
Proof.
  intros (_ & Hshape & _) Hrow Hword. unfold relevancy, column_total.
  apply lookup_lt_Some in Hword.
  assert (Forall (λ row : list Q, wid < length row) components_) as Hcol.
  { eapply Forall_impl; [exact Hshape|]. cbn. intros r ->. done. }
  rewrite Hrow. cbn.
  assert (is_Some (row !! wid)) as [x Hx].
  { apply lookup_lt_is_Some. rewrite Forall_forall in Hcol.
    apply Hcol. by eapply list_elem_of_lookup_2. }
  rewrite Hx. cbn. by rewrite mapM_column.
Qed.

Lemma topic_words_fold id row order acc :
  model_ok →
  components_ !! id = Some row →
  Forall (λ wid, wid < length get_feature_names) order →
  ∃ m,
    foldl (λ (r : option (gmap string Q)) (wid : nat),
             r ← r;
             word ← get_feature_names !! wid;
             rel ← relevancy id wid;
             Some (<[word := rel]> r))
          (Some acc) order = Some m
    ∧ (∀ wid word,
         wid ∈ order → get_feature_names !! wid = Some word →
         m !! word = Some (default 0%Q (row !! wid) / column_total wid)%Q)
    ∧ (∀ word,
         (∀ wid, wid ∈ order → get_feature_names !! wid ≠ Some word) →
         m !! word = acc !! word).
Proof.
  intros Hmodel Hrow Horder. revert acc.
  induction Horder as [|j rest Hj _ IH]; intros acc.
  { exists acc. split_and!; [done| |done]. intros wid word Hin. by apply elem_of_nil in Hin. }
  apply lookup_lt_is_Some in Hj as [wj Hwj].
  cbn [foldl mbind option_bind].
  rewrite Hwj. cbn [mbind option_bind].
  rewrite (relevancy_in_range id j row wj) by done. cbn [mbind option_bind].
  destruct (IH (<[wj := (default 0 (row !! j) / column_total j)%Q]> acc))
    as (m & Hm & Hin & Hout).
  exists m. split_and!; [done| |].
  - intros wid word Hwid Hword.
    destruct (decide (wid ∈ rest)) as [Hr|Hr]; [by apply Hin|].
    apply elem_of_cons in Hwid as [->|?]; [|done].
    rewrite Hout.
    + assert (wj = word) as -> by congruence. by rewrite lookup_insert_eq.
    + intros wid' Hwid' Hw'. destruct Hmodel as (Hnd & _).
      assert (wid' = j) as -> by (by eapply NoDup_lookup). done.
  - intros word Hnone. rewrite Hout.
    + rewrite lookup_insert_ne; [done|]. intros ->.
      by apply (Hnone j); [left|].
    + intros wid' Hwid'. apply Hnone. by right.
Qed.

Lemma topic_words_lookup id row wid word :
  argsort_permutes → model_ok →
  components_ !! id = Some row →
  get_feature_names !! wid = Some word →
  ∃ words,
    topic_words id = Some words
    ∧ words !! word = Some (default 0%Q (row !! wid) / column_total wid)%Q.
Proof.
  intros Hsort Hmodel Hrow Hword. unfold topic_words, vector_words. rewrite Hrow. cbn [mbind option_bind].
  assert (length row = length get_feature_names) as Hlen.
  { destruct Hmodel as (_ & Hshape & _). rewrite Forall_forall in Hshape.
    apply Hshape. by eapply list_elem_of_lookup_2. }
  assert (∀ i, i ∈ reverse (argsort row) ↔ i < length get_feature_names) as Hperm.
  { intros i. rewrite elem_of_reverse, (Hsort row), list_elem_of_In, in_seq, Hlen. lia. }
  destruct (topic_words_fold id row (reverse (argsort row)) ∅ Hmodel Hrow)
    as (m & Hm & Hin & _).
  { apply Forall_forall. intros i Hi. by apply Hperm. }
  exists m. split; [done|]. apply Hin; [|done].
  apply Hperm. by eapply lookup_lt_Some.
Qed.

(** *** The walk of [find_topic_word] *)

Lemma find_topic_word_walks text topic_id self words :
  topics_ok self →
  find_topic_word_cache self !! (text, topic_id) = None →
  topic_words topic_id = Some words →
  match (find_topic_word text topic_id self).1 with
  | Ok word =>
      ∃ before score after,
        topic_word_walk text words self = before ++ (word, score) :: after
        ∧ Forall (λ row, suitable row.1 = false) before
        ∧ suitable word = true
  | Raise e =>
      e = RuntimeError "Could not find suitable topic word."
      ∧ Forall (λ row, suitable row.1 = false) (topic_word_walk text words self)
  end.
Proof.
  intros [Hok Hs] E Hw. rewrite (find_topic_word_miss text topic_id self words E Hw).
  pose proof (first_suitable_spec (topic_word_walk text words self)
                (with_tokenizer (tokenize (join_paragraphs text) (_tokenizer self)).2
                   self)) as Hspec.
  destruct (first_suitable _ _) as [[w|] t]; cbn in *.
  - apply Hspec. split; [by apply tokenize_ok|done].
  - split; [done|]. apply Hspec. split; [by apply tokenize_ok|done].
Qed.

Lemma combined_scores_lookup source words w :
  combined_scores source words !! w
  = match source !! w, words !! w with
    | Some c, Some rel => Some (Some (np_log c * rel)%Q)
    | None, None => None
    | _, _ => Some None
    end.
Proof.
  unfold combined_scores, series_mul. rewrite lookup_merge, lookup_fmap.
  by destruct (source !! w), (words !! w).
Qed.

Lemma topic_word_walk_rows text words self w score :
  sorts_descending →
  (w, score) ∈ topic_word_walk text words self
  ↔ combined_scores
      (value_counts (tokenize (join_paragraphs text) (_tokenizer self)).1) words
      !! w = Some score.
Proof.
  intros Hsort. unfold topic_word_walk.
  destruct (Hsort (map_to_list (combined_scores
     (value_counts (tokenize (join_paragraphs text) (_tokenizer self)).1) words)))
    as [Hperm _].
  rewrite Hperm. apply elem_of_map_to_list.
Qed.

Lemma find_topic_word_no_topic text topic_id self :
  find_topic_word_cache self !! (text, topic_id) = None →
  topic_words topic_id = None →
  (find_topic_word text topic_id self).1 = Raise IndexError.
Proof.
  intros E Hw. unfold find_topic_word. rewrite E, Hw.
  by destruct (tokenize (join_paragraphs text) (_tokenizer self)).
Qed.

End topics_facts.


(** ** The stub sorts meet the assumptions on numpy and pandas *)

Lemma insert_index_perm values i l : insert_index values i l ≡ₚ i :: l.
Proof.
  induction l as [|j l IH]; cbn; [done|].
  destruct (Qlt_le_dec _ _); [|done]. rewrite IH. apply Permutation_swap.
Qed.

Lemma insertion_argsort_permutes : @argsort_permutes stub_numpy.
Proof.
  intros values. cbn. unfold insertion_argsort.
  induction (seq 0 (length values)) as [|i l IH]; cbn; [done|].
  by rewrite insert_index_perm, IH.
Qed.

Lemma score_geb_spec a b : score_geb a b = true ↔ score_ge a b.
Proof.
  destruct a as [x|], b as [y|]; cbn; try done.
  destruct (Qlt_le_dec x y); split; intros; try done. lra.
Qed.

Lemma score_ge_total a b : score_geb a b = false → score_ge b a.
Proof.
  destruct a as [x|], b as [y|]; cbn; try done.
  destruct (Qlt_le_dec x y); intros; try done. lra.
Qed.

Lemma score_ge_trans a b c : score_ge a b → score_ge b c → score_ge a c.
Proof.
  destruct a as [x|], b as [y|], c as [z|]; cbn; try done. lra.
Qed.

Lemma insert_desc_perm row l : insert_desc row l ≡ₚ row :: l.
Proof.
  induction l as [|row' l IH]; cbn; [done|].
  destruct (score_geb _ _); [done|]. rewrite IH. apply Permutation_swap.
Qed.

Lemma insert_desc_sorted row l :
  StronglySorted (λ a b, score_ge a.2 b.2) l →
  StronglySorted (λ a b, score_ge a.2 b.2) (insert_desc row l).
Proof.
  induction 1 as [|row' l Hl IH Hrow']; cbn; [by repeat constructor|].
  destruct (score_geb row.2 row'.2) eqn:E.
  - constructor; [by constructor|]. apply score_geb_spec in E.
    constructor; [done|]. eapply Forall_impl; [exact Hrow'|].
    intros x Hx. by eapply score_ge_trans.
  - constructor; [done|]. rewrite insert_desc_perm.
    constructor; [by apply score_ge_total|done].
Qed.

Lemma insertion_sort_sorts : @sorts_descending stub_numpy.
Proof.
  intros rows. cbn. unfold insertion_sort_desc. split.
  - induction rows as [|row l IH]; cbn; [done|]. by rewrite insert_desc_perm, IH.
  - induction rows as [|row l IH]; cbn; [constructor|]. by apply insert_desc_sorted.
Qed.

(** ** The model on examples *)

Example regex_words_example :
  @regex_words_findall stub_str "foo-bar baz: qux:ann a-b-c ab- x_1"
  = ["foo-bar"; "baz"; EmptyString; "qux"; EmptyString; "a-b"; "c"; "ab"; "x_1"].
Proof. reflexivity. Qed.

(** Three known words, one of them an adverb: no error, and the adverb is
    kept as the lowercase word. *)
Example tokenize_known_paragraph :
  (@tokenize_paragraph example_voikko stub_str true
     "Koirat juoksivat nopeasti." new_tokenizer).1
  = ["koira"; "juosta"; "nopeasti"].
Proof. vm_compute. reflexivity. Qed.

(** Three distinct unresolved words out of four: the paragraph is dropped. *)
Example tokenize_noisy_paragraph :
  (@tokenize_paragraph example_voikko stub_str true
     "koirat aaa bbb ccc" new_tokenizer).1 = [].
Proof. vm_compute. reflexivity. Qed.

(** A misspelling is replaced by the stem of its suggestion. *)
Example tokenize_misspelled_paragraph :
  (@tokenize_paragraph example_voikko stub_str true
     "kiorat juoksivat nopeasti" new_tokenizer).1
  = ["koira"; "juosta"; "nopeasti"].
Proof. vm_compute. reflexivity. Qed.

(** The verb scores higher in its topic, but only the noun is suitable. *)
Example find_topic_word_skips_verb :
  (@find_topic_word example_voikko stub_str example_sklearn stub_numpy
     ["juoksivat juoksivat kissat"] 1 new_topics).1 = Ok "kissa".
Proof. vm_compute. reflexivity. Qed.

Example find_topic_word_no_noun :
  (@find_topic_word example_voikko stub_str verb_sklearn stub_numpy
     ["juoksivat"] 0 new_topics).1
  = Raise (RuntimeError "Could not find suitable topic word.").
Proof. vm_compute. reflexivity. Qed.

(** ** Claims about stemming *)

(** Claim C9.  For a word with at least one morphological analysis, [_stem]
    returns one stem and leaves the error counter alone: the lowercase base
    form of the first analysis whose class is not a stopword class, or, when
    every analysis has a stopword class, the lowercase word itself; in both
    cases the stem is in the stem cache under the word afterwards. *)
Theorem stem_analyzable_word {voikko : Voikko} {pystr : PyStr} us word err self :
  tokenizer_ok self →
  ¬ unresolved word →
  ∃ s,
    (stem us word err self).1 = ([s], err)
    ∧ stem_map (stem us word err self).2 !! word = Some s
    ∧ (∀ pre m post,
         voikko_analyze word = pre ++ m :: post →
         Forall stopword_class pre → ¬ stopword_class m →
         s = lower (BASEFORM m))
    ∧ (Forall stopword_class (voikko_analyze word) → s = lower word).
Proof.
  intros Hok Hu. exists (stem_of word (voikko_analyze word)).
  destruct (stem_cached_result us word err self Hok) as (Hr & Hm & He); [by left|].
  split_and!.
  - destruct (stem us word err self) as [[r e] t]. cbn in *.
    rewrite Hr, He; [done|by left].
  - done.
  - intros pre m post -> Hpre Hm'. by apply stem_of_first.
  - apply stem_of_all_stopwords.
Qed.

Lemma stem_analyzable_word_witness :
  ∃ s,
    (@stem example_voikko stub_str true "nopeasti" 0 new_tokenizer).1 = ([s], 0)
    ∧ stem_map (@stem example_voikko stub_str true "nopeasti" 0 new_tokenizer).2
        !! "nopeasti" = Some s
    ∧ (∀ pre m post,
         @voikko_analyze example_voikko "nopeasti" = pre ++ m :: post →
         Forall stopword_class pre → ¬ stopword_class m →
         s = @lower stub_str (BASEFORM m))
    ∧ (Forall stopword_class (@voikko_analyze example_voikko "nopeasti") →
       s = @lower stub_str "nopeasti").
Proof.
  apply (@stem_analyzable_word example_voikko stub_str true "nopeasti" 0 new_tokenizer).
  - apply new_tokenizer_ok.
  - vm_compute. discriminate.
Defined.




(** Claim C3, as the code has it.  For a word that is not in the stem cache,
    has no analysis, and for which the oracle has a best suggestion, [_stem]
    with [use_suggestions=True] counts one error, asks for the suggestion,
    and returns what [tokenize_paragraph] gives for the suggestion string
    with [use_suggestions=False].  That call never recurses (whatever the
    recursive callback is, it is not used) and performs no suggestion
    lookup.  Being a paragraph of its own, the suggestion is subject to the
    noise rule: if it is a single word that is itself unresolved and not in
    the stem cache, the one error exceeds half of the one stem and the stems
    returned are empty, while the lowercase suggestion is stored in the stem
    cache; if that word is already in the stem cache, its cached stem, the
    lowercase suggestion, is returned. *)
Theorem stem_suggestion_retokenized {voikko : Voikko} {pystr : PyStr} word err self suggested rest :
  tokenizer_ok self →
  stem_map self !! word = None →
  unresolved word →
  voikko_suggest word = suggested :: rest →
  let self0 := log_call (VoikkoSuggest word) (analyze word self).2 in
  let inner := tokenize_paragraph false suggested self0 in
  stem true word err self = (inner.1, S err, inner.2)
  ∧ (∀ rec sentence t,
       tokenize_paragraph_with rec false sentence t = tokenize_paragraph false sentence t)
  ∧ suggest_calls inner.2 = suggest_calls self ++ [word]
  ∧ (∀ v, paragraph_words suggested = [v] → unresolved v →
       (stem_map self !! v = None →
          inner.1 = [] ∧ stem_map inner.2 !! v = Some (lower v))
       ∧ (is_Some (stem_map self !! v) →
          inner.1 = List.filter nonempty [lower v])).
Proof.
  intros Hok E Hu Hsg self0 inner.
  destruct (stem_misspelled word err self suggested rest Hok E Hu Hsg)
    as (Hstem & Hok0 & Hm0 & Hs0).
  split_and!.
  - done.
  - apply tokenize_paragraph_with_no_suggestions.
  - unfold inner. by rewrite tokenize_paragraph_false_suggest_calls.
  - intros v Hv Huv. rewrite <- Hm0.
    by apply tokenize_paragraph_false_single.
Qed.

Lemma stem_suggestion_retokenized_witness :
  let self0 := log_call (VoikkoSuggest "kiorat")
                 (@analyze example_voikko "kiorat" new_tokenizer).2 in
  let inner := @tokenize_paragraph example_voikko stub_str false "koirat" self0 in
  @stem example_voikko stub_str true "kiorat" 0 new_tokenizer = (inner.1, 1, inner.2)
  ∧ (∀ rec sentence t,
       @tokenize_paragraph_with example_voikko stub_str rec false sentence t
       = @tokenize_paragraph example_voikko stub_str false sentence t)
  ∧ suggest_calls inner.2 = suggest_calls new_tokenizer ++ ["kiorat"]
  ∧ (∀ v, @paragraph_words stub_str "koirat" = [v] → @unresolved example_voikko v →
       (stem_map new_tokenizer !! v = None →
          inner.1 = [] ∧ stem_map inner.2 !! v = Some (@lower stub_str v))
       ∧ (is_Some (stem_map new_tokenizer !! v) →
          inner.1 = List.filter nonempty [@lower stub_str v])).
Proof.
  apply (@stem_suggestion_retokenized example_voikko stub_str
           "kiorat" 0 new_tokenizer "koirat" []).
  - apply new_tokenizer_ok.
  - reflexivity.
  - reflexivity.
  - reflexivity.
Defined.

(** Claim C3 fails where the suggestion is itself unresolved: "xyz" is
    unknown, the oracle suggests "abc", and "abc" is unknown too.  The stems
    of "xyz" are empty, not the lowercase suggestion. *)
Lemma stem_suggestion_counterexample :
  @unresolved blind_voikko "xyz"
  ∧ @voikko_suggest blind_voikko "xyz" = ["abc"]
  ∧ @unresolved blind_voikko "abc"
  ∧ (@stem blind_voikko stub_str true "xyz" 0 new_tokenizer).1.1 = []
  ∧ (@stem blind_voikko stub_str true "xyz" 0 new_tokenizer).1.1
    ≠ [@lower stub_str "abc"].
Proof. vm_compute. split_and!; done. Qed.

(** Claim C10, as the code has it.  Take a word that is not in the stem
    cache, has no analysis and has a suggestion, and that is not itself one
    of the words of its suggestion.  Stemming it with [use_suggestions=True]
    adds no stem-cache entry under the word; the only keys that change are
    words of the suggestion; the error counter goes up by one and [suggest]
    is called once.  The tokenizer stays well formed, so the next encounter
    of the word does the same again.  As to who gains an entry under its own
    key: with [use_suggestions=True] only a word that is analysable, or has
    no suggestion, or occurs among the words of its own suggestion; with
    [use_suggestions=False], as for the words of a suggestion, every word,
    whether or not it has a suggestion of its own. *)
Theorem misspelled_word_not_cached {voikko : Voikko} {pystr : PyStr} word err self suggested rest :
  tokenizer_ok self →
  stem_map self !! word = None →
  unresolved word →
  voikko_suggest word = suggested :: rest →
  word ∉ paragraph_words suggested →
  let once := stem true word err self in
  let again := stem true word once.1.2 once.2 in
  (stem_map once.2 !! word = None
   ∧ (∀ k, k ∉ paragraph_words suggested → stem_map once.2 !! k = stem_map self !! k)
   ∧ once.1.2 = S err
   ∧ suggest_calls once.2 = suggest_calls self ++ [word])
  ∧ (stem_map again.2 !! word = None
     ∧ again.1.2 = S (S err)
     ∧ suggest_calls again.2 = suggest_calls self ++ [word; word])
  ∧ (∀ w e t,
       tokenizer_ok t → stem_map t !! w = None →
       is_Some (stem_map (stem true w e t).2 !! w) →
       ¬ unresolved w ∨ voikko_suggest w = []
       ∨ ∃ sg others, voikko_suggest w = sg :: others ∧ w ∈ paragraph_words sg)
  ∧ (∀ w e t, tokenizer_ok t → is_Some (stem_map (stem false w e t).2 !! w)).
Proof.
  intros Hok E Hu Hsg Hnot once again.
  destruct (stem_misspelled_step word err self suggested rest Hok E Hu Hsg Hnot)
    as (H1 & H2 & H3 & H4 & H5).
  destruct (stem_misspelled_step word once.1.2 once.2 suggested rest H5 H1 Hu Hsg Hnot)
    as (G1 & _ & G3 & G4 & _).
  fold once in H1, H2, H3, H4. fold again in G1, G3, G4.
  split_and!; try done.
  - by rewrite G3, H3.
  - by rewrite G4, H4, <- (assoc_L (++)).
  - intros w e t Ht Ew Hsome. destruct Ht as [Hc Hs].
    destruct (_stem_inv tokenize_paragraph_no_suggestions true w e t Hc)
      as [[s Es]|[[_ Huw]|[(_ & _ & [?|Hn])|(_ & Huw & _ & sg & others & Hw)]]].
    + by rewrite Ew in Es.
    + by left.
    + done.
    + by right; left.
    + destruct (decide (w ∈ paragraph_words sg)) as [Hin|Hout].
      * right; right. by eauto.
      * destruct (stem_misspelled_step w e t sg others (conj Hc Hs) Ew Huw Hw Hout)
          as (Hnone & _). rewrite Hnone in Hsome. by destruct Hsome.
  - intros w e t Ht.
    destruct (stem_cached_result false w e t Ht) as (_ & Hm & _); [by right; left|].
    by rewrite Hm.
Qed.

Lemma misspelled_word_not_cached_witness :
  let once := @stem example_voikko stub_str true "kiorat" 0 new_tokenizer in
  let again := @stem example_voikko stub_str true "kiorat" once.1.2 once.2 in
  (stem_map once.2 !! "kiorat" = None
   ∧ (∀ k, k ∉ @paragraph_words stub_str "koirat" →
           stem_map once.2 !! k = stem_map new_tokenizer !! k)
   ∧ once.1.2 = 1
   ∧ suggest_calls once.2 = suggest_calls new_tokenizer ++ ["kiorat"])
  ∧ (stem_map again.2 !! "kiorat" = None
     ∧ again.1.2 = 2
     ∧ suggest_calls again.2 = suggest_calls new_tokenizer ++ ["kiorat"; "kiorat"])
  ∧ (∀ w e t,
       @tokenizer_ok example_voikko stub_str t → stem_map t !! w = None →
       is_Some (stem_map (@stem example_voikko stub_str true w e t).2 !! w) →
       ¬ @unresolved example_voikko w ∨ @voikko_suggest example_voikko w = []
       ∨ ∃ sg others, @voikko_suggest example_voikko w = sg :: others
                      ∧ w ∈ @paragraph_words stub_str sg)
  ∧ (∀ w e t, @tokenizer_ok example_voikko stub_str t →
              is_Some (stem_map (@stem example_voikko stub_str false w e t).2 !! w)).
Proof.
  apply (@misspelled_word_not_cached example_voikko stub_str
           "kiorat" 0 new_tokenizer "koirat" []).
  - apply new_tokenizer_ok.
  - reflexivity.
  - reflexivity.
  - reflexivity.
  - apply (bool_decide_unpack _). vm_compute. exact I.
Defined.

(** Claim C10 fails for a word that reaches the tokenizer as another word's
    suggestion: "uvw" is unknown and the oracle suggests "xyz"; "xyz" is
    unknown too and has a suggestion of its own.  Tokenizing "uvw" stores
    "xyz" in the stem cache, and a later stemming of "xyz" is a cache hit: no
    error is counted and [suggest] is not called. *)
Lemma misspelled_word_counterexample :
  let self := (@tokenize_paragraph blind_voikko stub_str true "uvw" new_tokenizer).2 in
  @unresolved blind_voikko "xyz"
  ∧ @voikko_suggest blind_voikko "xyz" = ["abc"]
  ∧ stem_map new_tokenizer !! "xyz" = None
  ∧ stem_map self !! "xyz" = Some "xyz"
  ∧ @stem blind_voikko stub_str true "xyz" 0 self = (["xyz"], 0, self).
Proof. vm_compute. split_and!; done. Qed.

(** ** Claims about paragraphs *)

(** Claim C4, as the code has it.  When the oracle analyses every word of
    the paragraph, [tokenize_paragraph] returns the non-empty stems of its
    words, whatever the stem cache and the analysis cache hold: the same
    sequence on a second call on the same tokenizer and on every other well
    formed tokenizer.  (With an unresolved word the result depends on the
    stem cache, see the counterexample.) *)
Theorem tokenize_paragraph_deterministic_on_known_words
    {voikko : Voikko} {pystr : PyStr} us sentence self :
  tokenizer_ok self →
  Forall (λ w, ¬ unresolved w) (paragraph_words sentence) →
  let first := tokenize_paragraph us sentence self in
  first.1 = List.filter nonempty
              (map (λ w, stem_of w (voikko_analyze w)) (paragraph_words sentence))
  ∧ (tokenize_paragraph us sentence first.2).1 = first.1
  ∧ ∀ self', tokenizer_ok self' → (tokenize_paragraph us sentence self').1 = first.1.
Proof.
  intros Hok Hall first.
  pose proof (tokenize_paragraph_extends us sentence self Hok) as (Hok' & _).
  unfold first. rewrite !tokenize_paragraph_known by done.
  split_and!; [done..|]. intros self' Hok''. by rewrite tokenize_paragraph_known.
Qed.

Lemma tokenize_paragraph_deterministic_on_known_words_witness :
  let first := @tokenize_paragraph example_voikko stub_str true
                 "Koirat juoksivat nopeasti." new_tokenizer in
  first.1 = List.filter nonempty
              (map (λ w, @stem_of stub_str w (@voikko_analyze example_voikko w))
                   (@paragraph_words stub_str "Koirat juoksivat nopeasti."))
  ∧ (@tokenize_paragraph example_voikko stub_str true
       "Koirat juoksivat nopeasti." first.2).1 = first.1
  ∧ ∀ self', @tokenizer_ok example_voikko stub_str self' →
      (@tokenize_paragraph example_voikko stub_str true
         "Koirat juoksivat nopeasti." self').1 = first.1.
Proof.
  apply (@tokenize_paragraph_deterministic_on_known_words example_voikko stub_str
           true "Koirat juoksivat nopeasti." new_tokenizer).
  - apply new_tokenizer_ok.
  - vm_compute. repeat constructor; discriminate.
Defined.

(** Claim C4 fails on the paragraph "xyz" with an oracle that knows no word
    and suggests nothing: the first call counts one error against one stem
    and returns nothing; it leaves "xyz" in the stem cache, so the second
    call on the same tokenizer counts no error and returns the stem. *)
Lemma tokenize_paragraph_twice_counterexample :
  let first := @tokenize_paragraph silent_voikko stub_str true "xyz" new_tokenizer in
  let second := @tokenize_paragraph silent_voikko stub_str true "xyz" first.2 in
  first.1 = [] ∧ second.1 = ["xyz"].
Proof. vm_compute. done. Qed.

(** Claim C2, as the code has it.  [tokenize_paragraph] returns the empty
    sequence when the error counter strictly exceeds half the number of
    non-empty stems after fallback, and the stems otherwise; so the result
    is empty exactly when the counter exceeds that bound or there is no
    stem, and at exactly the boundary the stems are returned.  The counter
    goes up by one for each word that, when it is stemmed, is not in the
    stem cache and has no analysis, and stays for every other word.  When no
    suggestion is used (the flag is off, or no unresolved word has one) a
    counted word is cached at once, so the counter ends at the number of
    distinct words of the paragraph that have no analysis and were not in
    the stem cache at the start. *)
Theorem noise_rule {voikko : Voikko} {pystr : PyStr} us sentence self :
  let words := paragraph_words sentence in
  let pass := stem_words tokenize_paragraph_no_suggestions us words 0 self in
  let r := List.filter nonempty pass.1.1 in
  let err_count := pass.1.2 in
  tokenize_paragraph us sentence self
    = (if decide (length r < 2 * err_count) then [] else r, pass.2)
  ∧ ((tokenize_paragraph us sentence self).1 = []
     ↔ length r < 2 * err_count ∨ r = [])
  ∧ (length r = 2 * err_count → (tokenize_paragraph us sentence self).1 = r)
  ∧ (∀ word err t,
       cache_ok t →
       (stem us word err t).1.2
       = if decide (stem_map t !! word = None ∧ unresolved word) then S err else err)
  ∧ (tokenizer_ok self →
     us = false ∨ Forall (λ w, unresolved w → voikko_suggest w = []) words →
     err_count = size (uncached_unresolved self words)).
Proof.
  intros words pass r err_count.
  assert (tokenize_paragraph us sentence self
          = (if decide (length r < 2 * err_count) then [] else r, pass.2)) as Heq.
  { unfold tokenize_paragraph, tokenize_paragraph_with.
    unfold r, err_count, pass, words.
    destruct (stem_words _ us _ 0 self) as [[r0 e] t]. cbn [fst snd].
    destruct (too_many_errors (List.filter nonempty r0) e) eqn:Et.
    - apply too_many_errors_spec in Et. by rewrite decide_True.
    - apply too_many_errors_false in Et. rewrite decide_False; [done|lia]. }
  split_and!.
  - done.
  - rewrite Heq. cbn [fst]. case_decide as Hd.
    + split; [intros _; by left|done].
    + split; [by right|]. intros [?|?]; [lia|done].
  - intros Hb. rewrite Heq. cbn. rewrite decide_False; [done|lia].
  - intros word err t Hc. by apply _stem_err_count.
  - intros Hok Hsg. unfold err_count, pass.
    by rewrite stem_words_err_count.
Qed.

Lemma noise_rule_witness :
  let words := @paragraph_words stub_str "xyz xyz koirat" in
  let pass := @stem_words example_voikko stub_str
                (@tokenize_paragraph_no_suggestions example_voikko stub_str)
                true words 0 new_tokenizer in
  let r := List.filter nonempty pass.1.1 in
  let err_count := pass.1.2 in
  @tokenize_paragraph example_voikko stub_str true "xyz xyz koirat" new_tokenizer
    = (if decide (length r < 2 * err_count) then [] else r, pass.2)
  ∧ ((@tokenize_paragraph example_voikko stub_str true "xyz xyz koirat"
        new_tokenizer).1 = []
     ↔ length r < 2 * err_count ∨ r = [])
  ∧ (length r = 2 * err_count →
     (@tokenize_paragraph example_voikko stub_str true "xyz xyz koirat"
        new_tokenizer).1 = r)
  ∧ (∀ word err t,
       @cache_ok example_voikko t →
       (@stem example_voikko stub_str true word err t).1.2
       = if decide (stem_map t !! word = None ∧ @unresolved example_voikko word)
         then S err else err)
  ∧ err_count = size (@uncached_unresolved example_voikko new_tokenizer words).
Proof.
  pose proof (@noise_rule example_voikko stub_str true "xyz xyz koirat" new_tokenizer)
    as (H1 & H2 & H3 & H4 & H5).
  split_and!; [exact H1|exact H2|exact H3|exact H4|].
  apply H5.
  - apply new_tokenizer_ok.
  - right. vm_compute. repeat constructor.
Defined.

(** Claim C2 fails with an oracle that knows no word and suggests nothing.
    On a fresh tokenizer and the paragraph "xyz xyz" both words have an empty
    analysis, two exceeds half of the two stems, and yet the stems are
    returned: the second "xyz" is served from the stem cache and is not
    counted.  On the tokenizer that call leaves behind, the paragraph "xyz"
    has one unresolved word against one stem and its stem is returned.  And
    the empty paragraph returns the empty sequence with no unresolved word
    at all. *)
Lemma noise_rule_counterexample :
  let unresolved_count sentence :=
    length (filter (@unresolved silent_voikko) (@paragraph_words stub_str sentence)) in
  let first := @tokenize_paragraph silent_voikko stub_str true "xyz xyz" new_tokenizer in
  let second := @tokenize_paragraph silent_voikko stub_str true "xyz" first.2 in
  (unresolved_count "xyz xyz" = 2 ∧ first.1 = ["xyz"; "xyz"])
  ∧ (unresolved_count "xyz" = 1 ∧ second.1 = ["xyz"])
  ∧ (unresolved_count EmptyString = 0
     ∧ (@tokenize_paragraph silent_voikko stub_str true EmptyString new_tokenizer).1 = []).
Proof. vm_compute. done. Qed.

(** ** Claims about the topic-word selector *)




(** Claim C8, as the code has it.  The combined series has a row for every
    word of the collection's counts and every word of the topic's ranking:
    the score [log(count) * relevance] for a word in both, NaN for a word in
    only one of them.  NaN rows are not dropped; they sort after every
    scored row.  So the word returned is always one of these rows, and a
    word without a score is returned only when no scored word is
    suitable. *)
Theorem find_topic_word_unscored_last
    {voikko : Voikko} {pystr : PyStr} {sklearn : Sklearn} {numpy : Numpy}
    text topic_id self words :
  sorts_descending →
  topics_ok self →
  find_topic_word_cache self !! (text, topic_id) = None →
  topic_words topic_id = Some words →
  let source := value_counts (tokenize (join_paragraphs text) (_tokenizer self)).1 in
  let counts := combined_scores source words in
  (∀ w, counts !! w
        = match source !! w, words !! w with
          | Some c, Some rel => Some (Some (np_log c * rel)%Q)
          | None, None => None
          | _, _ => Some None
          end)
  ∧ (∀ word,
       (find_topic_word text topic_id self).1 = Ok word →
       is_Some (counts !! word)
       ∧ (counts !! word = Some None →
          ∀ w q, counts !! w = Some (Some q) → suitable w = false)).
Proof.
  intros Hsort Hok E Hw source counts. split.
  { intros w. apply combined_scores_lookup. }
  intros word Hword.
  pose proof (find_topic_word_walks text topic_id self words Hok E Hw) as Hwalk.
  rewrite Hword in Hwalk. destruct Hwalk as (before & score & after & Hsplit & Hbefore & _).
  assert (counts !! word = Some score) as Hscore.
  { apply (topic_word_walk_rows text words self word score Hsort).
    rewrite Hsplit. apply elem_of_app. right. by left. }
  split; [by rewrite Hscore|]. intros Hnan w q Hq.
  assert (score = None) as -> by congruence.
  apply (topic_word_walk_rows text words self w (Some q) Hsort) in Hq.
  rewrite Hsplit in Hq. apply elem_of_app in Hq as [Hq|Hq].
  - rewrite Forall_forall in Hbefore. by apply (Hbefore _ Hq).
  - apply elem_of_cons in Hq as [[=]|Hq].
    assert (StronglySorted (λ a b, score_ge a.2 b.2) (topic_word_walk text words self))
      as Hsorted by (unfold topic_word_walk; apply Hsort).
    rewrite Hsplit in Hsorted.
    apply StronglySorted_app_1_r, StronglySorted_cons in Hsorted as [Hafter _].
    rewrite Forall_forall in Hafter. by destruct (Hafter _ Hq).
Qed.

Lemma find_topic_word_unscored_last_witness :
  let words := default ∅ (@topic_words verb_sklearn stub_numpy 0) in
  let source := value_counts (@tokenize example_voikko stub_str
                                (join_paragraphs ["koirat juoksivat"])
                                (_tokenizer new_topics)).1 in
  let counts := @combined_scores stub_numpy source words in
  (∀ w, counts !! w
        = match source !! w, words !! w with
          | Some c, Some rel => Some (Some (@np_log stub_numpy c * rel)%Q)
          | None, None => None
          | _, _ => Some None
          end)
  ∧ (∀ word,
       (@find_topic_word example_voikko stub_str verb_sklearn stub_numpy
          ["koirat juoksivat"] 0 new_topics).1 = Ok word →
       is_Some (counts !! word)
       ∧ (counts !! word = Some None →
          ∀ w q, counts !! w = Some (Some q) → @suitable example_voikko w = false)).
Proof.
  apply (@find_topic_word_unscored_last example_voikko stub_str verb_sklearn
           stub_numpy ["koirat juoksivat"] 0 new_topics).
  - apply insertion_sort_sorts.
  - apply new_topics_ok.
  - reflexivity.
  - vm_compute. reflexivity.
Defined.

(** Claim C8 fails on the collection "koirat juoksivat" with a model whose
    vocabulary is the single stem "juosta": the stem "koira" is absent from
    the topic's ranking, its row has no score, and the walk still reaches it
    after the verb "juosta" and returns it. *)
Lemma find_topic_word_unscored_counterexample :
  (@topic_words verb_sklearn stub_numpy 0) ≫= (.!! "koira") = None
  ∧ (@find_topic_word example_voikko stub_str verb_sklearn stub_numpy
       ["koirat juoksivat"] 0 new_topics).1 = Ok "koira".
Proof. vm_compute. done. Qed.




(** Claim C7.  For a fitted model (non-negative weights, one column per
    vocabulary word, no word twice) and a word whose column total is
    positive, [topic_words] gives the word, in every topic, the relevance
    [components_[topic][word] / sum of components_[t][word] over all topics
    t]; that relevance lies between 0 and 1, and the relevances of the word
    over all topics sum to 1, in exact rational arithmetic. *)
Theorem topic_words_normalized {sklearn : Sklearn} {numpy : Numpy} id row wid word :
  argsort_permutes →
  model_ok →
  components_ !! id = Some row →
  get_feature_names !! wid = Some word →
  (0 < column_total wid)%Q →
  ∃ words weight,
    topic_words id = Some words
    ∧ row !! wid = Some weight
    ∧ words !! word = Some (weight / column_total wid)%Q
    ∧ (0 <= weight / column_total wid <= 1)%Q
    ∧ ∃ rels,
        mapM (λ t, topic_words t ≫= (.!! word)) (seq 0 (length components_)) = Some rels
        ∧ (sum_Q rels == 1)%Q.
Proof.
  intros Hsort Hmodel Hrow Hword Hpos.
  destruct (topic_words_lookup id row wid word Hsort Hmodel Hrow Hword)
    as (words & Hwords & Hrel).
  pose proof Hmodel as (_ & Hshape & Hnonneg).
  assert (is_Some (row !! wid)) as [weight Hweight].
  { apply lookup_lt_is_Some. rewrite Forall_forall in Hshape.
    rewrite (Hshape row) by (by eapply list_elem_of_lookup_2).
    by eapply lookup_lt_Some. }
  rewrite Hweight in Hrel. cbn in Hrel.
  exists words, weight. split_and!; [done..| | |].
  - apply Qle_shift_div_l; [done|]. rewrite Qmult_0_l.
    rewrite Forall_forall in Hnonneg.
    assert (Forall (λ x, 0 <= x)%Q row) as Hr
      by (apply Hnonneg; by eapply list_elem_of_lookup_2).
    rewrite Forall_forall in Hr. apply Hr. by eapply list_elem_of_lookup_2.
  - apply Qle_shift_div_r; [done|]. rewrite Qmult_1_l.
    unfold column_total. apply (sum_Q_ge_elem _ id).
    + apply Forall_fmap. eapply Forall_impl; [exact Hnonneg|]. cbn. intros r Hr.
      destruct (r !! wid) as [x|] eqn:Ex; cbn; [|done].
      rewrite Forall_forall in Hr. apply Hr. by eapply list_elem_of_lookup_2.
    + by rewrite list_lookup_fmap, Hrow; cbn; rewrite Hweight.
  - exists (map (λ r : list Q, default 0 (r !! wid) / column_total wid)%Q components_).
    split.
    + apply mapM_Some. apply Forall2_same_length_lookup_2.
      { by rewrite length_seq, length_map. }
      intros t tt rel Ht Hrel'. apply lookup_seq in Ht as [-> Ht]. cbn [Nat.add].
      rewrite list_lookup_fmap in Hrel'.
      destruct (components_ !! t) as [r|] eqn:Er; [|done]. injection Hrel' as <-.
      destruct (topic_words_lookup t r wid word Hsort Hmodel Er Hword)
        as (m & -> & Hm). done.
    + rewrite <- (map_map (λ r : list Q, default 0%Q (r !! wid))
                          (λ x, x / column_total wid)%Q).
      rewrite sum_Q_map_div. fold (column_total wid). field. lra.
Qed.

Lemma topic_words_normalized_witness :
  ∃ words weight,
    @topic_words example_sklearn stub_numpy 0 = Some words
    ∧ [4; 1; 1]%Q !! 0 = Some weight
    ∧ words !! "koira" = Some (weight / @column_total example_sklearn 0)%Q
    ∧ (0 <= weight / @column_total example_sklearn 0 <= 1)%Q
    ∧ ∃ rels,
        mapM (λ t, @topic_words example_sklearn stub_numpy t ≫= (.!! "koira"))
             (seq 0 (length (@components_ example_sklearn))) = Some rels
        ∧ (sum_Q rels == 1)%Q.
Proof.
  apply (@topic_words_normalized example_sklearn stub_numpy 0 [4; 1; 1]%Q 0 "koira").
  - apply insertion_argsort_permutes.
  - split_and!.
    + apply (bool_decide_unpack _). vm_compute. exact I.
    + repeat constructor.
    + repeat constructor; vm_compute; discriminate.
  - reflexivity.
  - reflexivity.
  - vm_compute. reflexivity.
Defined.

(** * Further properties of the tokenizer *)

Section tokenizer_more.
Context {voikko : Voikko} {pystr : PyStr}.

Implicit Types (self : VoikkoTokenizer) (word : string) (err : nat).
Implicit Types rec : string → VoikkoTokenizer → list string * VoikkoTokenizer.

(** *** Whole texts *)

Lemma tokenize_paragraphs_extends paragraphs self :
  tokenizer_ok self → extends self (tokenize_paragraphs paragraphs self).2.
Proof.
  revert self. induction paragraphs as [|p ps IH]; intros self Hok.
  { by apply extends_refl. }
  cbn [tokenize_paragraphs].
  pose proof (tokenize_paragraph_extends true p self Hok) as Hp.
  destruct (tokenize_paragraph true p self) as [r t]. cbn [snd] in Hp.
  specialize (IH t (proj1 Hp)).
  destruct (tokenize_paragraphs ps t) as [rs t']. cbn [snd] in *.
  by eapply extends_trans.
Qed.

Lemma tokenize_paragraphs_app ps1 ps2 self :
  tokenize_paragraphs (ps1 ++ ps2) self
  = ((tokenize_paragraphs ps1 self).1
       ++ (tokenize_paragraphs ps2 (tokenize_paragraphs ps1 self).2).1,
     (tokenize_paragraphs ps2 (tokenize_paragraphs ps1 self).2).2).
Proof.
  revert self. induction ps1 as [|p ps1 IH]; intros self; cbn [app tokenize_paragraphs].
  { cbn [fst snd app]. by destruct (tokenize_paragraphs ps2 self). }
  destruct (tokenize_paragraph true p self) as [r t]. rewrite IH.
  destruct (tokenize_paragraphs ps1 t) as [rs t']. cbn [fst snd].
  destruct (tokenize_paragraphs ps2 t') as [rs' t'']. cbn [fst snd].
  by rewrite (assoc_L (++)).
Qed.

(** *** Which keys the stem cache gains *)

Lemma _stem_false_dom rec word err self :
  dom (stem_map (_stem rec false word err self).2) = {[word]} ∪ dom (stem_map self).
Proof.
  unfold _stem. destruct (stem_map self !! word) as [s|] eqn:E.
  - cbn. symmetry. apply subseteq_union_1_L, singleton_subseteq_l.
    by apply elem_of_dom_2 in E.
  - pose proof (analyze_stem_map word self) as Ha.
    destruct (analyze word self) as [a t]. cbn in Ha.
    destruct a; cbn; by rewrite dom_insert_L, Ha.
Qed.

Lemma stem_words_false_dom rec words err self :
  dom (stem_map (stem_words rec false words err self).2)
  = list_to_set words ∪ dom (stem_map self).
Proof.
  revert err self. induction words as [|w ws IH]; intros err self.
  { cbn. by rewrite (left_id_L ∅ (∪)). }
  cbn [stem_words]. pose proof (_stem_false_dom rec w err self) as Hw.
  destruct (_stem rec false w err self) as [[r e] t]. cbn [snd] in Hw.
  specialize (IH e t). destruct (stem_words rec false ws e t) as [[rs e'] t'].
  cbn [snd] in *. rewrite IH, Hw, list_to_set_cons.
  rewrite (assoc_L (∪)). f_equal. apply (comm_L (∪)).
Qed.

Lemma tokenize_paragraph_false_dom sentence self :
  dom (stem_map (tokenize_paragraph false sentence self).2)
  = list_to_set (paragraph_words sentence) ∪ dom (stem_map self).
Proof.
  unfold tokenize_paragraph. rewrite tokenize_paragraph_with_snd.
  apply stem_words_false_dom.
Qed.

Lemma stem_true_new_keys word err self k :
  k ∈ dom (stem_map (stem true word err self).2) →
  k ∈ dom (stem_map self) ∨ k = word
  ∨ ∃ sg rest, voikko_suggest word = sg :: rest ∧ k ∈ paragraph_words sg.
Proof.
  unfold stem, _stem. destruct (stem_map self !! word) as [s|] eqn:E; [by left|].
  pose proof (analyze_stem_map word self) as Ha.
  destruct (analyze word self) as [a t]. cbn in Ha. destruct a as [|m a].
  - destruct (voikko_suggest word) as [|sg rest] eqn:Es.
    + cbn. rewrite dom_insert_L, Ha, elem_of_union, elem_of_singleton. tauto.
    + rewrite tokenize_paragraph_no_suggestions_eq.
      destruct (tokenize_paragraph false sg (log_call (VoikkoSuggest word) t))
        as [r t'] eqn:Et.
      pose proof (tokenize_paragraph_false_dom sg (log_call (VoikkoSuggest word) t))
        as Hd. rewrite Et in Hd. cbn in Hd |- *. rewrite Hd, Ha.
      rewrite elem_of_union, elem_of_list_to_set. intros [?|?]; [|by left].
      right; right. by exists sg, rest.
  - cbn. rewrite dom_insert_L, Ha, elem_of_union, elem_of_singleton. tauto.
Qed.

Lemma stem_words_true_new_keys words err self k :
  k ∈ dom (stem_map (stem_words tokenize_paragraph_no_suggestions true words err self).2) →
  k ∈ dom (stem_map self) ∨ k ∈ words
  ∨ ∃ w sg rest, w ∈ words ∧ voikko_suggest w = sg :: rest ∧ k ∈ paragraph_words sg.
Proof.
  revert err self. induction words as [|w ws IH]; intros err self; [by left|].
  cbn [stem_words]. pose proof (stem_true_new_keys w err self k) as Hw.
  unfold stem in Hw.
  destruct (_stem tokenize_paragraph_no_suggestions true w err self) as [[r e] t].
  cbn [snd] in Hw. specialize (IH e t).
  destruct (stem_words tokenize_paragraph_no_suggestions true ws e t) as [[rs e'] t'].
  cbn [snd] in *. intros Hk.
  destruct (IH Hk) as [Hk'|[Hk'|(w' & sg & rest & Hw' & Hs & Hk')]].
  - destruct (Hw Hk') as [?|[->|(sg & rest & Hs & ?)]].
    + by left.
    + right; left. by left.
    + right; right. exists w, sg, rest. split_and!; [by left|done..].
  - right; left. by right.
  - right; right. exists w', sg, rest. split_and!; [by right|done..].
Qed.

(** *** The oracle is asked to analyse a word once *)

Lemma analyze_log_ok word self : log_ok self → log_ok (analyze word self).2.
Proof.
  intros [Hnd Hin]. unfold analyze.
  destruct (analyze_cache self !! word) as [a|] eqn:E; [done|].
  unfold log_ok, analyze_calls. cbn. rewrite omap_app. cbn. split.
  - apply NoDup_app. split_and!; [done| |apply NoDup_singleton].
    intros w Hw Hw'. apply list_elem_of_singleton in Hw' as ->.
    apply Hin in Hw as [a Ha]. congruence.
  - intros w Hw. rewrite lookup_insert. case_decide; [by eexists|].
    apply elem_of_app in Hw as [Hw|Hw]; [by apply Hin|].
    by apply list_elem_of_singleton in Hw.
Qed.

Lemma log_call_suggest_log_ok word self :
  log_ok self → log_ok (log_call (VoikkoSuggest word) self).
Proof.
  intros [Hnd Hin]. unfold log_ok, analyze_calls. cbn.
  rewrite omap_app. cbn. by rewrite app_nil_r.
Qed.

Lemma _stem_log_ok rec us word err self :
  (∀ s t, log_ok t → log_ok (rec s t).2) →
  log_ok self → log_ok (_stem rec us word err self).2.
Proof.
  intros Hrec Hok. unfold _stem. destruct (stem_map self !! word); [done|].
  pose proof (analyze_log_ok word self Hok) as Ha.
  destruct (analyze word self) as [a t]. cbn [snd] in Ha.
  destruct a; [|done]. destruct us; [|done].
  destruct (voikko_suggest word) as [|sg rest]; [by apply log_call_suggest_log_ok|].
  pose proof (Hrec sg _ (log_call_suggest_log_ok word t Ha)) as Hr.
  by destruct (rec sg _).
Qed.

Lemma stem_words_log_ok rec us words err self :
  (∀ s t, log_ok t → log_ok (rec s t).2) →
  log_ok self → log_ok (stem_words rec us words err self).2.
Proof.
  intros Hrec. revert err self.
  induction words as [|w ws IH]; intros err self Hok; [done|].
  cbn [stem_words]. pose proof (_stem_log_ok rec us w err self Hrec Hok) as Hw.
  destruct (_stem rec us w err self) as [[r e] t]. cbn [snd] in Hw.
  specialize (IH e t Hw). by destruct (stem_words rec us ws e t) as [[rs e'] t'].
Qed.

Lemma tokenize_paragraph_log_ok us sentence self :
  log_ok self → log_ok (tokenize_paragraph us sentence self).2.
Proof.
  unfold tokenize_paragraph. rewrite tokenize_paragraph_with_snd.
  apply stem_words_log_ok. intros s t Ht.
  unfold tokenize_paragraph_no_suggestions. rewrite tokenize_paragraph_with_snd.
  by apply stem_words_log_ok.
Qed.

Lemma tokenize_paragraphs_log_ok paragraphs self :
  log_ok self → log_ok (tokenize_paragraphs paragraphs self).2.
Proof.
  revert self. induction paragraphs as [|p ps IH]; intros self Hok; [done|].
  cbn [tokenize_paragraphs].
  pose proof (tokenize_paragraph_log_ok true p self Hok) as Hp.
  destruct (tokenize_paragraph true p self) as [r t]. cbn [snd] in Hp.
  specialize (IH t Hp). by destruct (tokenize_paragraphs ps t).
Qed.

(** *** Suggestion lookups *)

Lemma stem_suggest_calls us word err self :
  ∃ l, suggest_calls (stem us word err self).2 = suggest_calls self ++ l
       ∧ l `sublist_of` [word].
Proof.
  unfold stem, _stem. destruct (stem_map self !! word).
  { exists []. cbn. rewrite app_nil_r. split; [done|apply sublist_nil_l]. }
  pose proof (analyze_suggest_calls word self) as Ha.
  destruct (analyze word self) as [a t]. cbn [snd] in Ha.
  assert (∃ l, suggest_calls t = suggest_calls self ++ l ∧ l `sublist_of` [word])
    as Hnone.
  { exists []. rewrite app_nil_r. split; [done|apply sublist_nil_l]. }
  destruct a; [|done]. destruct us; [|done].
  exists [word]. split; [|done].
  destruct (voikko_suggest word) as [|sg rest].
  - cbn [snd set_stem]. unfold suggest_calls in *. cbn. rewrite omap_app. cbn.
    by rewrite Ha.
  - rewrite tokenize_paragraph_no_suggestions_eq.
    pose proof (tokenize_paragraph_false_suggest_calls sg
                  (log_call (VoikkoSuggest word) t)) as Hr.
    destruct (tokenize_paragraph false sg _) as [r t']. cbn [snd] in *.
    by rewrite Hr, suggest_calls_log_call, Ha.
Qed.

Lemma stem_words_suggest_calls us words err self :
  ∃ l, suggest_calls
         (stem_words tokenize_paragraph_no_suggestions us words err self).2
       = suggest_calls self ++ l
       ∧ l `sublist_of` words.
Proof.
  revert err self. induction words as [|w ws IH]; intros err self.
  { exists []. cbn. by rewrite app_nil_r. }
  cbn [stem_words]. destruct (stem_suggest_calls us w err self) as (l1 & H1 & S1).
  unfold stem in H1.
  destruct (_stem tokenize_paragraph_no_suggestions us w err self) as [[r e] t].
  cbn [snd] in H1. destruct (IH e t) as (l2 & H2 & S2).
  destruct (stem_words tokenize_paragraph_no_suggestions us ws e t) as [[rs e'] t'].
  cbn [snd] in *. exists (l1 ++ l2). split.
  - by rewrite H2, H1, (assoc_L (++)).
  - change (l1 ++ l2 `sublist_of` [w] ++ ws). by apply sublist_app.
Qed.

(** *** The stems of a paragraph *)

Lemma stem_words_stems us words err self :
  tokenizer_ok self →
  us = false ∨ Forall (λ w, unresolved w → voikko_suggest w = []) words →
  (stem_words tokenize_paragraph_no_suggestions us words err self).1.1
  = map oracle_stem words.
Proof.
  revert err self. induction words as [|w ws IH]; intros err self Hok Hsg; [done|].
  assert (us = false ∨ Forall (λ w, unresolved w → voikko_suggest w = []) ws) as Hsg'.
  { destruct Hsg as [|Hsg]; [by left|]. right. by apply Forall_cons in Hsg as [_ ?]. }
  cbn [stem_words map].
  destruct (stem_cached_result us w err self Hok) as (Hr & _ & _).
  { destruct Hsg as [|Hsg]; [by right; left|]. apply Forall_cons in Hsg as [Hw _].
    destruct (decide (unresolved w)); [right; right; left; by apply Hw|by left]. }
  pose proof (stem_extends us w err self Hok) as (Hok' & _). unfold stem in *.
  destruct (_stem tokenize_paragraph_no_suggestions us w err self) as [[r e] t].
  cbn [fst snd] in *. specialize (IH e t Hok' Hsg').
  destruct (stem_words tokenize_paragraph_no_suggestions us ws e t) as [[rs e'] t'].
  cbn [fst snd] in *. by rewrite Hr, IH.
Qed.

Lemma stem_of_lowered word analysis : lowered (stem_of word analysis).
Proof. unfold stem_of. destruct (List.find _ _); by eexists. Qed.

Lemma _stem_lowered rec us word err self :
  (∀ s t, tokenizer_ok t → Forall lowered (rec s t).1) →
  tokenizer_ok self →
  Forall lowered (_stem rec us word err self).1.1.
Proof.
  intros Hrec Hok. pose proof Hok as [Hc Hs].
  destruct (_stem_inv rec us word err self Hc)
    as [[s E]|[[E Hu]|[(E & Hu & Hf)|(E & Hu & -> & sg & rest & Hsg)]]].
  - rewrite (_stem_hit _ _ _ _ _ s E). cbn. constructor; [|done].
    rewrite (Hs _ _ E). apply stem_of_lowered.
  - rewrite _stem_analyzable by done. cbn. constructor; [|done]. apply stem_of_lowered.
  - rewrite _stem_fallback by done. cbn. constructor; [|done]. by eexists.
  - rewrite (_stem_suggested _ _ _ _ sg rest) by done. cbn.
    by apply Hrec, log_call_extends, analyze_ok.
Qed.

Lemma stem_words_lowered rec us words err self :
  (∀ s t, tokenizer_ok t → Forall lowered (rec s t).1) →
  (∀ s t, tokenizer_ok t → extends t (rec s t).2) →
  tokenizer_ok self →
  Forall lowered (stem_words rec us words err self).1.1.
Proof.
  intros Hrec Hext. revert err self.
  induction words as [|w ws IH]; intros err self Hok; [by cbn|].
  cbn [stem_words]. pose proof (_stem_lowered rec us w err self Hrec Hok) as Hw.
  pose proof (_stem_extends rec us w err self Hext Hok) as (Hok' & _).
  destruct (_stem rec us w err self) as [[r e] t]. cbn [fst snd] in *.
  specialize (IH e t Hok'). destruct (stem_words rec us ws e t) as [[rs e'] t'].
  cbn [fst snd] in *. by apply Forall_app.
Qed.

Lemma Forall_list_filter {A} (P : A → Prop) (f : A → bool) (l : list A) :
  Forall P l → Forall P (List.filter f l).
Proof.
  induction 1 as [|x l Hx _ IH]; cbn; [done|]. destruct (f x); [by constructor|done].
Qed.

Lemma tokenize_paragraph_with_lowered rec us sentence self :
  (∀ s t, tokenizer_ok t → Forall lowered (rec s t).1) →
  (∀ s t, tokenizer_ok t → extends t (rec s t).2) →
  tokenizer_ok self →
  Forall lowered (tokenize_paragraph_with rec us sentence self).1.
Proof.
  intros Hrec Hext Hok. unfold tokenize_paragraph_with.
  pose proof (stem_words_lowered rec us (paragraph_words sentence) 0 self Hrec Hext Hok)
    as Hw.
  destruct (stem_words rec us _ 0 self) as [[r e] t]. cbn [fst] in Hw.
  destruct (too_many_errors _ _); cbn; [done|]. by apply Forall_list_filter.
Qed.

Lemma tokenize_paragraph_lowered us sentence self :
  tokenizer_ok self → Forall lowered (tokenize_paragraph us sentence self).1.
Proof.
  apply tokenize_paragraph_with_lowered.
  - intros s t Ht. apply tokenize_paragraph_with_lowered; [done| |done].
    intros _ t' Ht'. by apply extends_refl.
  - intros s t. apply tokenize_paragraph_no_suggestions_extends.
Qed.

End tokenizer_more.

Section tokenizer_texts.
Context {voikko : Voikko} {pystr : PyStr}.

Lemma new_tokenizer_log_ok : log_ok new_tokenizer.
Proof. split; [constructor|]. intros w Hw. by apply elem_of_nil in Hw. Qed.

Lemma tokenize_paragraphs_lowered paragraphs self :
  tokenizer_ok self → Forall lowered (tokenize_paragraphs paragraphs self).1.
Proof.
  revert self. induction paragraphs as [|p ps IH]; intros self Hok; [by cbn|].
  cbn [tokenize_paragraphs].
  pose proof (tokenize_paragraph_lowered true p self Hok) as Hp.
  pose proof (tokenize_paragraph_extends true p self Hok) as (Hok' & _).
  destruct (tokenize_paragraph true p self) as [r t]. cbn [fst snd] in *.
  specialize (IH t Hok'). destruct (tokenize_paragraphs ps t) as [rs t'].
  cbn [fst] in *. by apply Forall_app.
Qed.

Lemma tokenize_paragraphs_cons p ps self :
  tokenize_paragraphs (p :: ps) self
  = ((tokenize_paragraph true p self).1
       ++ (tokenize_paragraphs ps (tokenize_paragraph true p self).2).1,
     (tokenize_paragraphs ps (tokenize_paragraph true p self).2).2).
Proof.
  cbn [tokenize_paragraphs]. destruct (tokenize_paragraph true p self) as [r t].
  cbn [fst snd]. by destruct (tokenize_paragraphs ps t).
Qed.

End tokenizer_texts.

(** X1.  [tokenize] and [tokenize_paragraph] keep a well-formed tokenizer
    well formed (the caches hold what the oracle answers), never remove or
    change an entry of the stem cache, and only append to the oracle's call
    log. *)
Theorem tokenize_keeps_caches {voikko : Voikko} {pystr : PyStr} us text self :
  tokenizer_ok self →
  extends self (tokenize text self).2
  ∧ extends self (tokenize_paragraph us text self).2.
Proof.
  intros Hok. split.
  - by apply tokenize_paragraphs_extends.
  - by apply tokenize_paragraph_extends.
Qed.

Lemma tokenize_keeps_caches_witness :
  @extends example_voikko stub_str new_tokenizer
    (@tokenize example_voikko stub_str "kiorat juoksivat" new_tokenizer).2
  ∧ @extends example_voikko stub_str new_tokenizer
      (@tokenize_paragraph example_voikko stub_str true "kiorat juoksivat"
         new_tokenizer).2.
Proof.
  apply (@tokenize_keeps_caches example_voikko stub_str true
           "kiorat juoksivat" new_tokenizer).
  apply new_tokenizer_ok.
Defined.

(** X2.  With [use_suggestions=False], [tokenize_paragraph] leaves exactly
    the words of the paragraph as new keys in the stem cache: every word is
    cached, resolved or not, and no other key is added. *)
Theorem tokenize_paragraph_false_caches_its_words
    {voikko : Voikko} {pystr : PyStr} sentence self :
  dom (stem_map (tokenize_paragraph false sentence self).2)
  = list_to_set (paragraph_words sentence) ∪ dom (stem_map self).
Proof.
  unfold tokenize_paragraph. rewrite tokenize_paragraph_with_snd.
  apply stem_words_false_dom.
Qed.

(** X3.  With [use_suggestions=True], a key that [tokenize_paragraph] adds
    to the stem cache is a word of the paragraph or a word of the first
    suggestion for a word of the paragraph. *)
Theorem tokenize_paragraph_new_keys {voikko : Voikko} {pystr : PyStr} sentence self k :
  k ∈ dom (stem_map (tokenize_paragraph true sentence self).2) →
  k ∈ dom (stem_map self)
  ∨ k ∈ paragraph_words sentence
  ∨ ∃ w sg rest,
      w ∈ paragraph_words sentence
      ∧ voikko_suggest w = sg :: rest
      ∧ k ∈ paragraph_words sg.
Proof.
  unfold tokenize_paragraph. rewrite tokenize_paragraph_with_snd.
  apply stem_words_true_new_keys.
Qed.

Lemma tokenize_paragraph_new_keys_witness :
  "koirat" ∈ dom (stem_map new_tokenizer)
  ∨ "koirat" ∈ @paragraph_words stub_str "kiorat juoksivat"
  ∨ ∃ w sg rest,
      w ∈ @paragraph_words stub_str "kiorat juoksivat"
      ∧ @voikko_suggest example_voikko w = sg :: rest
      ∧ "koirat" ∈ @paragraph_words stub_str sg.
Proof.
  apply (@tokenize_paragraph_new_keys example_voikko stub_str
           "kiorat juoksivat" new_tokenizer "koirat").
  apply elem_of_dom. vm_compute. by eexists.
Defined.

(** X4.  The analysis cache works: if the oracle has so far been asked to
    analyse no word twice and every analysed word is cached, the same holds
    after [tokenize]; in particular a tokenizer that starts fresh never
    asks the oracle to analyse a word a second time. *)
Theorem analyze_called_once_per_word {voikko : Voikko} {pystr : PyStr} text self :
  log_ok self →
  NoDup (analyze_calls (tokenize text self).2)
  ∧ ∀ w, w ∈ analyze_calls (tokenize text self).2 →
         is_Some (analyze_cache (tokenize text self).2 !! w).
Proof. intros Hok. by apply tokenize_paragraphs_log_ok. Qed.

Lemma analyze_called_once_per_word_witness :
  NoDup (analyze_calls
           (@tokenize example_voikko stub_str "koirat koirat kiorat" new_tokenizer).2)
  ∧ ∀ w, w ∈ analyze_calls
               (@tokenize example_voikko stub_str "koirat koirat kiorat"
                  new_tokenizer).2 →
         is_Some (analyze_cache
                    (@tokenize example_voikko stub_str "koirat koirat kiorat"
                       new_tokenizer).2 !! w).
Proof.
  apply (@analyze_called_once_per_word example_voikko stub_str
           "koirat koirat kiorat" new_tokenizer).
  apply new_tokenizer_log_ok.
Defined.

(** X5.  [tokenize_paragraph] asks the oracle for suggestions only for
    words of the paragraph, in their order and at most once per occurrence,
    never for a word of a suggestion, and not at all with
    [use_suggestions=False]. *)
Theorem suggest_only_for_paragraph_words
    {voikko : Voikko} {pystr : PyStr} us sentence self :
  ∃ l,
    suggest_calls (tokenize_paragraph us sentence self).2 = suggest_calls self ++ l
    ∧ l `sublist_of` paragraph_words sentence
    ∧ (us = false → l = []).
Proof.
  unfold tokenize_paragraph. rewrite tokenize_paragraph_with_snd.
  destruct (stem_words_suggest_calls us (paragraph_words sentence) 0 self)
    as (l & Hl & Hsub).
  exists l. split_and!; [done..|]. intros ->.
  rewrite stem_words_false_suggest_calls in Hl.
  apply (f_equal length) in Hl. rewrite length_app in Hl.
  destruct l; [done|]. cbn in Hl. lia.
Qed.

(** X6.  When no suggestion is used (the flag is off, or no unresolved word
    of the paragraph has one), the result of [tokenize_paragraph] is either
    empty or, in order, the non-empty stems the oracle's analyses give for
    the words: the caches decide only whether the paragraph is dropped. *)
Theorem tokenize_paragraph_stems_or_nothing
    {voikko : Voikko} {pystr : PyStr} us sentence self :
  tokenizer_ok self →
  us = false
  ∨ Forall (λ w, unresolved w → voikko_suggest w = []) (paragraph_words sentence) →
  (tokenize_paragraph us sentence self).1 = []
  ∨ (tokenize_paragraph us sentence self).1
    = List.filter nonempty (map oracle_stem (paragraph_words sentence)).
Proof.
  intros Hok Hsg. unfold tokenize_paragraph, tokenize_paragraph_with.
  pose proof (stem_words_stems us (paragraph_words sentence) 0 self Hok Hsg) as Hw.
  destruct (stem_words _ us _ 0 self) as [[r e] t]. cbn [fst] in Hw. subst r.
  destruct (too_many_errors _ _); [by left|by right].
Qed.

Lemma tokenize_paragraph_stems_or_nothing_witness :
  (@tokenize_paragraph example_voikko stub_str false "kiorat juoksivat nopeasti"
     new_tokenizer).1 = []
  ∨ (@tokenize_paragraph example_voikko stub_str false "kiorat juoksivat nopeasti"
       new_tokenizer).1
    = List.filter nonempty
        (map (@oracle_stem example_voikko stub_str)
             (@paragraph_words stub_str "kiorat juoksivat nopeasti")).
Proof.
  apply (@tokenize_paragraph_stems_or_nothing example_voikko stub_str false
           "kiorat juoksivat nopeasti" new_tokenizer).
  - apply new_tokenizer_ok.
  - left. reflexivity.
Defined.

(** X7.  Every token [tokenize] returns, and every stem in the stem cache
    afterwards, is a value of [str.lower]. *)
Theorem tokens_are_lowered {voikko : Voikko} {pystr : PyStr} text self :
  tokenizer_ok self →
  Forall lowered (tokenize text self).1
  ∧ ∀ w s, stem_map (tokenize text self).2 !! w = Some s → lowered s.
Proof.
  intros Hok. split; [by apply tokenize_paragraphs_lowered|].
  intros w s Hs.
  pose proof (tokenize_paragraphs_extends (splitlines text) self Hok) as ((_ & Hst) & _).
  unfold tokenize in Hs. rewrite (Hst _ _ Hs). apply stem_of_lowered.
Qed.

Lemma tokens_are_lowered_witness :
  Forall (@lowered stub_str)
    (@tokenize example_voikko stub_str "Koirat JUOKSIVAT xyz" new_tokenizer).1
  ∧ ∀ w s,
      stem_map (@tokenize example_voikko stub_str "Koirat JUOKSIVAT xyz"
                  new_tokenizer).2 !! w = Some s →
      @lowered stub_str s.
Proof.
  apply (@tokens_are_lowered example_voikko stub_str "Koirat JUOKSIVAT xyz"
           new_tokenizer).
  apply new_tokenizer_ok.
Defined.

(** X8.  Noise is judged per paragraph, and the output keeps the order of
    the paragraphs: for a paragraph of the text all of whose words the
    oracle analyses, the result of [tokenize] is the tokens of the
    paragraphs before it, then the non-empty stems of its words, then the
    tokens of the paragraphs after it, whatever those other paragraphs
    are. *)
Theorem known_paragraph_survives
    {voikko : Voikko} {pystr : PyStr} text before p after self :
  tokenizer_ok self →
  splitlines text = before ++ p :: after →
  Forall (λ w, ¬ unresolved w) (paragraph_words p) →
  let self1 := (tokenize_paragraphs before self).2 in
  let self2 := (tokenize_paragraph true p self1).2 in
  (tokenize text self).1
  = (tokenize_paragraphs before self).1
    ++ List.filter nonempty (map oracle_stem (paragraph_words p))
    ++ (tokenize_paragraphs after self2).1.
Proof.
  intros Hok Hsplit Hknown self1 self2. unfold tokenize. rewrite Hsplit.
  rewrite tokenize_paragraphs_app. cbn [fst].
  pose proof (tokenize_paragraphs_extends before self Hok) as (Hok' & _).
  rewrite tokenize_paragraphs_cons. cbn [fst].
  by rewrite (tokenize_paragraph_known true p _ Hok' Hknown).
Qed.

Lemma known_paragraph_survives_witness :
  let text := "xyz" +:+ newline +:+ "koirat juoksivat" +:+ newline +:+ "kissat" in
  let self1 := (@tokenize_paragraphs example_voikko stub_str ["xyz"] new_tokenizer).2 in
  let self2 := (@tokenize_paragraph example_voikko stub_str true
                  "koirat juoksivat" self1).2 in
  (@tokenize example_voikko stub_str text new_tokenizer).1
  = (@tokenize_paragraphs example_voikko stub_str ["xyz"] new_tokenizer).1
    ++ List.filter nonempty
         (map (@oracle_stem example_voikko stub_str)
              (@paragraph_words stub_str "koirat juoksivat"))
    ++ (@tokenize_paragraphs example_voikko stub_str ["kissat"] self2).1.
Proof.
  apply (@known_paragraph_survives example_voikko stub_str
           ("xyz" +:+ newline +:+ "koirat juoksivat" +:+ newline +:+ "kissat")
           ["xyz"] "koirat juoksivat" ["kissat"] new_tokenizer).
  - apply new_tokenizer_ok.
  - reflexivity.
  - vm_compute. repeat constructor; discriminate.
Defined.

(** * Further properties of the word pattern *)

Lemma string_append_nil_l (b : string) : EmptyString +:+ b = b.
Proof. reflexivity. Qed.

Lemma string_append_cons x (a b : string) : String x a +:+ b = String x (a +:+ b).
Proof. reflexivity. Qed.

Lemma string_append_assoc (a b c : string) : (a +:+ b) +:+ c = a +:+ (b +:+ c).
Proof.
  induction a as [|x a IH]; [done|]. by rewrite !string_append_cons, IH.
Qed.

Lemma string_append_nil_r (a : string) : a +:+ EmptyString = a.
Proof. induction a as [|x a IH]; [done|]. by rewrite string_append_cons, IH. Qed.

Section scanner_facts.
Context {pystr : PyStr}.

Lemma all_word_chars_app a b :
  all_word_chars (a +:+ b) = all_word_chars a && all_word_chars b.
Proof.
  induction a as [|x a IH]; [done|].
  rewrite string_append_cons. cbn. rewrite IH. by rewrite andb_assoc.
Qed.

Lemma is_run_single c : word_char c = true → is_run (String c EmptyString).
Proof. intros Hc. split; [done|]. cbn. by rewrite Hc. Qed.

Lemma is_run_snoc acc c : is_run acc → word_char c = true → is_run (snoc_char acc c).
Proof.
  intros [Hne Hall] Hc. unfold snoc_char. split.
  - destruct acc; [done|]. by rewrite string_append_cons.
  - rewrite all_word_chars_app, Hall. cbn. by rewrite Hc.
Qed.

Lemma is_compound_start acc c :
  is_run acc → word_char c = true →
  is_compound (snoc_char (snoc_char acc "-"%char) c).
Proof.
  intros Hacc Hc. exists acc, (String c EmptyString).
  split_and!; [done|by apply is_run_single|].
  unfold snoc_char, dash. by rewrite string_append_assoc.
Qed.

Lemma is_compound_snoc acc c :
  is_compound acc → word_char c = true → is_compound (snoc_char acc c).
Proof.
  intros (a & b & Ha & Hb & ->) Hc. exists a, (snoc_char b c).
  split_and!; [done|by apply is_run_snoc|].
  unfold snoc_char. by rewrite !string_append_assoc.
Qed.

Lemma scan_start_ok c : scan_ok (scan_start c).
Proof.
  unfold scan_start. destruct (word_char c) eqn:Hc; [by apply is_run_single|].
  by case_decide.
Qed.

(** Every match is empty, a run, or two runs joined by a dash. *)
Lemma findall_from_tokens st s : scan_ok st → Forall is_token (findall_from st s).
Proof.
  revert st. induction s as [|c s IH]; intros st Hst.
  { destruct st; cbn in *.
    - constructor.
    - constructor; [by right; left|constructor].
    - constructor; [by right; left|constructor].
    - constructor; [by right; right|constructor].
    - constructor; [by left|constructor]. }
  destruct st as [|acc|acc|acc|]; cbn [findall_from]; cbn in Hst.
  - apply IH, scan_start_ok.
  - destruct (word_char c) eqn:Hc; [by apply IH, is_run_snoc|].
    case_decide; [by apply IH|].
    constructor; [by right; left|apply IH, scan_start_ok].
  - destruct (word_char c) eqn:Hc; [by apply IH, is_compound_start|].
    constructor; [by right; left|apply IH, scan_start_ok].
  - destruct (word_char c) eqn:Hc; [by apply IH, is_compound_snoc|].
    constructor; [by right; right|apply IH, scan_start_ok].
  - destruct (word_char c) eqn:Hc; [by apply IH|].
    constructor; [by left|apply IH, scan_start_ok].
Qed.

(** Without a word character there is nothing but empty matches. *)
Lemma findall_from_no_word_chars st s :
  no_word_chars s = true → st = Idle ∨ st = Colon →
  Forall (λ w, w = EmptyString) (findall_from st s).
Proof.
  revert st. induction s as [|c s IH]; intros st Hs Hst.
  { destruct Hst as [-> | ->]; cbn; [constructor|]. by constructor. }
  cbn in Hs. apply andb_true_iff in Hs as [Hc Hs]. apply negb_true_iff in Hc.
  assert (scan_start c = Idle ∨ scan_start c = Colon) as Hstart.
  { unfold scan_start. rewrite Hc. case_decide; [by right|by left]. }
  destruct Hst as [-> | ->]; cbn [findall_from].
  - by apply IH.
  - rewrite Hc. constructor; [done|by apply IH].
Qed.

(** Scanning a run of word characters extends the match in progress. *)
Lemma findall_run_app acc w rest :
  all_word_chars w = true →
  findall_from (Run acc) (w +:+ rest) = findall_from (Run (acc +:+ w)) rest.
Proof.
  revert acc. induction w as [|c w IH]; intros acc Hw.
  { by rewrite string_append_nil_l, string_append_nil_r. }
  cbn in Hw. apply andb_true_iff in Hw as [Hc Hw].
  rewrite string_append_cons. cbn [findall_from].
  rewrite Hc, IH by done. unfold snoc_char.
  by rewrite string_append_assoc, string_append_cons, string_append_nil_l.
Qed.

Lemma findall_compound_app acc w rest :
  all_word_chars w = true →
  findall_from (Compound acc) (w +:+ rest) = findall_from (Compound (acc +:+ w)) rest.
Proof.
  revert acc. induction w as [|c w IH]; intros acc Hw.
  { by rewrite string_append_nil_l, string_append_nil_r. }
  cbn in Hw. apply andb_true_iff in Hw as [Hc Hw].
  rewrite string_append_cons. cbn [findall_from].
  rewrite Hc, IH by done. unfold snoc_char.
  by rewrite string_append_assoc, string_append_cons, string_append_nil_l.
Qed.

Lemma findall_colon_app w rest :
  all_word_chars w = true →
  findall_from Colon (w +:+ rest) = findall_from Colon rest.
Proof.
  induction w as [|c w IH]; intros Hw; [done|].
  cbn in Hw. apply andb_true_iff in Hw as [Hc Hw].
  rewrite string_append_cons. cbn [findall_from]. by rewrite Hc, IH.
Qed.

Lemma findall_idle_run w rest :
  is_run w → findall_from Idle (w +:+ rest) = findall_from (Run w) rest.
Proof.
  intros [Hne Hw]. destruct w as [|c w]; [done|].
  cbn in Hw. apply andb_true_iff in Hw as [Hc Hw].
  rewrite string_append_cons. cbn [findall_from].
  unfold scan_start. rewrite Hc, findall_run_app by done.
  by rewrite string_append_cons, string_append_nil_l.
Qed.

Lemma findall_dash_run acc w rest :
  is_run w →
  findall_from (Dash acc) (w +:+ rest)
  = findall_from (Compound (acc +:+ dash +:+ w)) rest.
Proof.
  intros [Hne Hw]. destruct w as [|c w]; [done|].
  cbn in Hw. apply andb_true_iff in Hw as [Hc Hw].
  rewrite string_append_cons. cbn [findall_from].
  rewrite Hc, findall_compound_app by done. unfold snoc_char, dash.
  by rewrite !string_append_assoc, !string_append_cons, !string_append_nil_l.
Qed.

End scanner_facts.

(** X9.  Every word [tokenize_paragraph] extracts from a paragraph is a
    non-empty run of word characters or two such runs joined by one dash: a
    word never starts or ends with a dash and never holds a second dash or
    a colon fragment. *)
Theorem words_are_runs_or_compounds {pystr : PyStr} sentence :
  Forall (λ w, is_run w ∨ is_compound w) (paragraph_words sentence).
Proof.
  unfold paragraph_words, regex_words_findall.
  pose proof (findall_from_tokens Idle (lower sentence) I) as Htok.
  induction Htok as [|w l Hw _ IH]; cbn; [done|].
  destruct (nonempty w) eqn:Ew; [|done]. constructor; [|done].
  destruct Hw as [->|Hw]; [done|done].
Qed.

(** X10.  Dashes and colons, for a word class that holds neither: two runs
    joined by a dash are one word; of three runs joined by dashes the first
    two are one word and the third a word of its own; of a run, a colon and
    a run only the first run is a word (the colon fragment matches empty). *)
Theorem compound_and_colon_words {pystr : PyStr} a b c :
  word_char "-"%char = false →
  word_char ":"%char = false →
  is_run a → is_run b → is_run c →
  regex_words_findall (a +:+ dash +:+ b) = [a +:+ dash +:+ b]
  ∧ regex_words_findall (a +:+ dash +:+ b +:+ dash +:+ c) = [a +:+ dash +:+ b; c]
  ∧ regex_words_findall (a +:+ colon +:+ b) = [a; EmptyString].
Proof.
  intros Hdash Hcolon Ha Hb Hc. unfold regex_words_findall.
  assert (∀ rest, findall_from Idle (a +:+ dash +:+ rest) = findall_from (Dash a) rest)
    as Hstart.
  { intros rest. rewrite findall_idle_run by done. unfold dash.
    rewrite string_append_cons, string_append_nil_l. cbn [findall_from].
    rewrite Hdash. by rewrite decide_True. }
  split_and!.
  - rewrite Hstart. rewrite <- (string_append_nil_r b) at 1.
    by rewrite findall_dash_run.
  - rewrite Hstart, findall_dash_run by done. unfold dash at 2.
    rewrite string_append_cons, string_append_nil_l. cbn [findall_from].
    rewrite Hdash. f_equal.
    unfold scan_start. rewrite Hdash. rewrite decide_False by done.
    rewrite <- (string_append_nil_r c) at 1. by rewrite findall_idle_run.
  - rewrite findall_idle_run by done. unfold colon.
    rewrite string_append_cons, string_append_nil_l. cbn [findall_from].
    rewrite Hcolon. rewrite decide_False by done. f_equal.
    unfold scan_start. rewrite Hcolon. rewrite decide_True by done.
    rewrite <- (string_append_nil_r b) at 1. destruct Hb as [_ Hb].
    by rewrite findall_colon_app.
Qed.

Lemma compound_and_colon_words_witness :
  @regex_words_findall stub_str ("abc" +:+ dash +:+ "de") = ["abc" +:+ dash +:+ "de"]
  ∧ @regex_words_findall stub_str ("abc" +:+ dash +:+ "de" +:+ dash +:+ "f")
    = ["abc" +:+ dash +:+ "de"; "f"]
  ∧ @regex_words_findall stub_str ("abc" +:+ colon +:+ "de") = ["abc"; EmptyString].
Proof.
  apply (@compound_and_colon_words stub_str "abc" "de" "f").
  - reflexivity.
  - reflexivity.
  - split; [discriminate|reflexivity].
  - split; [discriminate|reflexivity].
  - split; [discriminate|reflexivity].
Defined.

(** X11.  A paragraph whose lower-cased text holds no word character
    (empty, blank, punctuation only) has no words: [tokenize_paragraph]
    returns the empty sequence and leaves the tokenizer as it was, with no
    call to the oracle. *)
Theorem paragraph_without_words
    {voikko : Voikko} {pystr : PyStr} us sentence self :
  no_word_chars (lower sentence) = true →
  paragraph_words sentence = []
  ∧ tokenize_paragraph us sentence self = ([], self).
Proof.
  intros Hs.
  assert (paragraph_words sentence = []) as Hw.
  { unfold paragraph_words, regex_words_findall.
    pose proof (findall_from_no_word_chars Idle (lower sentence) Hs
                  (or_introl eq_refl)) as Hall.
    induction Hall as [|w l -> _ IH]; cbn; done. }
  split; [done|].
  unfold tokenize_paragraph, tokenize_paragraph_with. rewrite Hw. cbn [stem_words].
  cbn [List.filter]. destruct (too_many_errors [] 0) eqn:E; [|done].
  apply too_many_errors_spec in E. cbn in E. lia.
Qed.

Lemma paragraph_without_words_witness :
  @paragraph_words stub_str " ... :: --- !" = []
  ∧ @tokenize_paragraph example_voikko stub_str true " ... :: --- !" new_tokenizer
    = ([], new_tokenizer).
Proof.
  apply (@paragraph_without_words example_voikko stub_str true " ... :: --- !"
           new_tokenizer).
  reflexivity.
Defined.

(** * Further properties of the topic-word selector *)

(** *** argmax and argmin *)

Lemma argmax_from_spec (prefix l : list Q) (best_i : nat) (best : Q) :
  prefix !! best_i = Some best →
  (∀ i y, prefix !! i = Some y → (y <= best)%Q) →
  (∀ i y, i < best_i → prefix !! i = Some y → (y < best)%Q) →
  ∃ x,
    (prefix ++ l) !! argmax_from best_i best (length prefix) l = Some x
    ∧ (∀ i y, (prefix ++ l) !! i = Some y → (y <= x)%Q)
    ∧ (∀ i y, i < argmax_from best_i best (length prefix) l →
              (prefix ++ l) !! i = Some y → (y < x)%Q).
Proof.
  revert prefix best_i best. induction l as [|x l IH]; intros prefix best_i best Hb Hle Hlt.
  { rewrite app_nil_r. cbn. by exists best. }
  cbn [argmax_from]. rewrite (cons_middle x prefix l), (assoc_L (++)).
  replace (S (length prefix)) with (length (prefix ++ [x]))
    by (rewrite length_app; cbn; lia).
  pose proof (lookup_lt_Some _ _ _ Hb) as Hbi.
  destruct (Qlt_le_dec best x) as [Hx|Hx]; apply IH.
  - rewrite lookup_app_r by lia. by rewrite Nat.sub_diag.
  - intros i y Hi. apply lookup_app_Some in Hi as [Hi|[_ Hi]].
    + specialize (Hle i y Hi). lra.
    + apply list_lookup_singleton_Some in Hi as [_ <-]. lra.
  - intros i y Hi Hy. rewrite lookup_app_l in Hy by done.
    specialize (Hle i y Hy). lra.
  - by rewrite lookup_app_l.
  - intros i y Hi. apply lookup_app_Some in Hi as [Hi|[_ Hi]].
    + by apply (Hle i).
    + by apply list_lookup_singleton_Some in Hi as [_ <-].
  - intros i y Hi Hy. rewrite lookup_app_l in Hy by lia. by apply (Hlt i).
Qed.

Lemma argmin_from_spec (prefix l : list Q) (best_i : nat) (best : Q) :
  prefix !! best_i = Some best →
  (∀ i y, prefix !! i = Some y → (best <= y)%Q) →
  (∀ i y, i < best_i → prefix !! i = Some y → (best < y)%Q) →
  ∃ x,
    (prefix ++ l) !! argmin_from best_i best (length prefix) l = Some x
    ∧ (∀ i y, (prefix ++ l) !! i = Some y → (x <= y)%Q)
    ∧ (∀ i y, i < argmin_from best_i best (length prefix) l →
              (prefix ++ l) !! i = Some y → (x < y)%Q).
Proof.
  revert prefix best_i best. induction l as [|x l IH]; intros prefix best_i best Hb Hle Hlt.
  { rewrite app_nil_r. cbn. by exists best. }
  cbn [argmin_from]. rewrite (cons_middle x prefix l), (assoc_L (++)).
  replace (S (length prefix)) with (length (prefix ++ [x]))
    by (rewrite length_app; cbn; lia).
  pose proof (lookup_lt_Some _ _ _ Hb) as Hbi.
  destruct (Qlt_le_dec x best) as [Hx|Hx]; apply IH.
  - rewrite lookup_app_r by lia. by rewrite Nat.sub_diag.
  - intros i y Hi. apply lookup_app_Some in Hi as [Hi|[_ Hi]].
    + specialize (Hle i y Hi). lra.
    + apply list_lookup_singleton_Some in Hi as [_ <-]. lra.
  - intros i y Hi Hy. rewrite lookup_app_l in Hy by done.
    specialize (Hle i y Hy). lra.
  - by rewrite lookup_app_l.
  - intros i y Hi. apply lookup_app_Some in Hi as [Hi|[_ Hi]].
    + by apply (Hle i).
    + by apply list_lookup_singleton_Some in Hi as [_ <-].
  - intros i y Hi Hy. rewrite lookup_app_l in Hy by lia. by apply (Hlt i).
Qed.

(** [np.argmax]: the index of a greatest entry, the first of them. *)
Lemma np_argmax_spec (l : list Q) (m : nat) :
  np_argmax l = Some m →
  ∃ x, l !! m = Some x
       ∧ (∀ i y, l !! i = Some y → (y <= x)%Q)
       ∧ (∀ i y, i < m → l !! i = Some y → (y < x)%Q).
Proof.
  destruct l as [|x0 l]; [done|]. intros [= <-].
  apply (argmax_from_spec [x0] l 0 x0); [done| |].
  - intros i y Hi. apply list_lookup_singleton_Some in Hi as [_ <-]. lra.
  - intros i y Hi. lia.
Qed.

Lemma np_argmin_spec (l : list Q) (m : nat) :
  np_argmin l = Some m →
  ∃ x, l !! m = Some x
       ∧ (∀ i y, l !! i = Some y → (x <= y)%Q)
       ∧ (∀ i y, i < m → l !! i = Some y → (x < y)%Q).
Proof.
  destruct l as [|x0 l]; [done|]. intros [= <-].
  apply (argmin_from_spec [x0] l 0 x0); [done| |].
  - intros i y Hi. apply list_lookup_singleton_Some in Hi as [_ <-]. lra.
  - intros i y Hi. lia.
Qed.

Lemma argmax_from_flat (l : list Q) (best_i : nat) (best : Q) (i : nat) :
  Forall (λ y, y == best)%Q l → argmax_from best_i best i l = best_i.
Proof.
  intros Hl. revert i. induction Hl as [|y l Hy _ IH]; intros i; [done|].
  cbn. destruct (Qlt_le_dec best y); [lra|apply IH].
Qed.

Lemma argmin_from_flat (l : list Q) (best_i : nat) (best : Q) (i : nat) :
  Forall (λ y, y == best)%Q l → argmin_from best_i best i l = best_i.
Proof.
  intros Hl. revert i. induction Hl as [|y l Hy _ IH]; intros i; [done|].
  cbn. destruct (Qlt_le_dec y best); [lra|apply IH].
Qed.

Lemma zip_with_Qminus_self (a : list Q) : Forall (λ y, y == 0)%Q (zip_with Qminus a a).
Proof. induction a as [|x a IH]; cbn; constructor; [lra|done]. Qed.

Lemma np_arg_self (a : list Q) :
  a ≠ [] →
  np_argmax (zip_with Qminus a a) = Some 0
  ∧ np_argmin (zip_with Qminus a a) = Some 0.
Proof.
  intros Ha. pose proof (zip_with_Qminus_self a) as Hz.
  destruct a as [|x a]; [done|]. cbn in *.
  apply Forall_cons in Hz as [Hx Hz].
  assert (Forall (λ y, y == x - x)%Q (zip_with Qminus a a)) as Hflat.
  { eapply Forall_impl; [exact Hz|]. cbn. intros y Hy. lra. }
  by rewrite argmax_from_flat, argmin_from_flat.
Qed.

(** *** Counts and the relevancy table *)

Lemma value_counts_lookup tokens w :
  is_Some (value_counts tokens !! w) ↔ w ∈ tokens.
Proof.
  induction tokens as [|t tokens IH]; cbn.
  - rewrite lookup_empty, elem_of_nil. split; [by intros [? ?]|done].
  - rewrite lookup_insert, elem_of_cons. case_decide as Ht.
    + split; [by left|by eexists].
    + rewrite IH. split; [by right|]. by intros [->|?].
Qed.

Section topics_more.
Context {voikko : Voikko} {pystr : PyStr} {sklearn : Sklearn} {numpy : Numpy}.

Implicit Types self : TextTopics.

Lemma topic_words_step_keys id order acc m w :
  foldl (λ (r : option (gmap string Q)) (wid : nat),
           r ← r;
           word ← get_feature_names !! wid;
           rel ← relevancy id wid;
           Some (<[word := rel]> r))
        acc order = Some m →
  is_Some (m !! w) →
  (∃ a, acc = Some a ∧ is_Some (a !! w)) ∨ w ∈ get_feature_names.
Proof.
  revert acc. induction order as [|j rest IH]; intros acc Hm Hw.
  { cbn in Hm. left. by exists m. }
  cbn [foldl] in Hm. destruct (IH _ Hm Hw) as [(a & Ha & Haw)|?]; [|by right].
  destruct acc as [acc|]; [|done]. cbn in Ha.
  destruct (get_feature_names !! j) as [wj|] eqn:Ej; [|done]. cbn in Ha.
  destruct (relevancy id j) as [rel|]; [|done]. cbn in Ha. injection Ha as <-.
  rewrite lookup_insert in Haw. case_decide as Hj.
  - right. subst. by eapply list_elem_of_lookup_2.
  - left. by exists acc.
Qed.

Lemma topic_words_keys id words w :
  topic_words id = Some words → is_Some (words !! w) → w ∈ get_feature_names.
Proof.
  unfold topic_words, vector_words. destruct (components_ !! id) as [row|]; [|done].
  cbn [mbind option_bind]. intros Hm Hw.
  destruct (topic_words_step_keys id _ _ _ w Hm Hw) as [(a & [= <-] & Ha)|?]; [|done].
  rewrite lookup_empty in Ha. by destruct Ha.
Qed.

Lemma topic_words_out_of_range id :
  length components_ ≤ id → topic_words id = None.
Proof.
  intros Hid. unfold topic_words. by rewrite (lookup_ge_None_2 _ _ Hid).
Qed.

(** *** Invariants *)

Lemma first_suitable_ok walk self :
  topics_ok self → topics_ok (first_suitable walk self).2.
Proof.
  revert self. induction walk as [|[w sc] walk IH]; intros self Hok; [done|].
  cbn [first_suitable].
  pose proof (_suitable_topic_word_spec w self Hok) as [_ Hok'].
  destruct (_suitable_topic_word w self) as [b t]. cbn [snd] in Hok'.
  destruct b; [done|]. by apply IH.
Qed.

Lemma find_topic_word_ok text topic_id self :
  topics_ok self → topics_ok (find_topic_word text topic_id self).2.
Proof.
  intros Hok. unfold find_topic_word.
  destruct (find_topic_word_cache self !! (text, topic_id)); [done|].
  pose proof (tokenize_ok (join_paragraphs text) (_tokenizer self) (proj1 Hok)) as Htk.
  destruct (tokenize (join_paragraphs text) (_tokenizer self)) as [tokens tk].
  cbn [snd] in Htk.
  assert (topics_ok (with_tokenizer tk self)) as Hok' by (split; [done|apply Hok]).
  destruct (topic_words topic_id) as [words|]; [|done].
  pose proof (first_suitable_ok
                (sort_values_desc
                   (map_to_list (combined_scores (value_counts tokens) words)))
                _ Hok') as Hfs.
  destruct (first_suitable _ _) as [[w|] t]; [|done]. cbn [snd] in *.
  destruct Hfs as [H1 H2]. by split.
Qed.

Lemma _get_topics_ok source self :
  (∀ src tk, tokenizer_ok tk → tokenizer_ok (transform_mean src tk).2) →
  topics_ok self → topics_ok (_get_topics source self).2.
Proof.
  intros Htr [Hok Hs]. unfold _get_topics.
  destruct (_get_topics_cache self !! source); [done|].
  pose proof (Htr source _ Hok) as Htk.
  destruct (transform_mean source (_tokenizer self)) as [v tk]. by split.
Qed.

End topics_more.

(** X12.  [find_topic_word] is memoised on success only.  After a call
    that returns a word, the same call again returns that word and leaves
    the object, its tokenizer included, exactly as it is (no tokenizing, no
    oracle call).  A call that raises stores nothing in the memo, so the
    same call later computes again. *)
Theorem find_topic_word_memoised
    {voikko : Voikko} {pystr : PyStr} {sklearn : Sklearn} {numpy : Numpy}
    text topic_id self r self' :
  find_topic_word text topic_id self = (r, self') →
  match r with
  | Ok word => find_topic_word text topic_id self' = (Ok word, self')
  | Raise e =>
      find_topic_word_cache self !! (text, topic_id) = None
      ∧ find_topic_word_cache self' = find_topic_word_cache self
  end.
Proof.
  intros Hcall. destruct r as [word|e].
  - apply find_topic_word_post in Hcall as (Hc & _ & _).
    by apply find_topic_word_hit.
  - unfold find_topic_word in Hcall.
    destruct (find_topic_word_cache self !! (text, topic_id)) as [w|] eqn:E; [done|].
    split; [done|].
    destruct (tokenize (join_paragraphs text) (_tokenizer self)) as [tokens tk].
    destruct (topic_words topic_id) as [words|]; [|by injection Hcall as _ <-].
    pose proof (first_suitable_frame
                  (sort_values_desc
                     (map_to_list (combined_scores (value_counts tokens) words)))
                  (with_tokenizer tk self)) as [_ Hf].
    destruct (first_suitable _ _) as [[w|] t]; [done|].
    injection Hcall as _ <-. exact Hf.
Qed.

Lemma find_topic_word_memoised_witness :
  let first := @find_topic_word example_voikko stub_str example_sklearn stub_numpy
                 dog_texts 0 new_topics in
  @find_topic_word example_voikko stub_str example_sklearn stub_numpy
    dog_texts 0 first.2 = (Ok "koira", first.2).
Proof.
  apply (@find_topic_word_memoised example_voikko stub_str example_sklearn stub_numpy
           dog_texts 0 new_topics (Ok "koira")).
  vm_compute. reflexivity.
Defined.

(** X13.  [find_topic_word] keeps a well-formed object well formed: the
    tokenizer's caches and the suitability cache still hold what the oracle
    answers.  So does [compare_series], when the model's transform keeps
    the tokenizer well formed. *)
Theorem topics_stay_well_formed
    {voikko : Voikko} {pystr : PyStr} {sklearn : Sklearn} {numpy : Numpy}
    source target text topic_id self :
  topics_ok self →
  topics_ok (find_topic_word text topic_id self).2
  ∧ ((∀ src tk, tokenizer_ok tk → tokenizer_ok (transform_mean src tk).2) →
     topics_ok (compare_series source target self).2).
Proof.
  intros Hok. split; [by apply find_topic_word_ok|]. intros Htr.
  unfold compare_series.
  pose proof (_get_topics_ok (dropna source) self Htr Hok) as H1.
  destruct (_get_topics (dropna source) self) as [ta s1]. cbn [snd] in H1.
  pose proof (_get_topics_ok (dropna target) s1 Htr H1) as H2.
  destruct (_get_topics (dropna target) s1) as [tb s2]. cbn [snd] in H2.
  destruct (np_argmax _) as [topic_max|]; [|done].
  destruct (np_argmin _) as [topic_min|]; [|done].
  pose proof (find_topic_word_ok (dropna source) topic_max s2 H2) as H3.
  destruct (find_topic_word (dropna source) topic_max s2) as [[wa|e] s3];
    cbn [snd] in H3; [|done].
  pose proof (find_topic_word_ok (dropna target) topic_min s3 H3) as H4.
  by destruct (find_topic_word (dropna target) topic_min s3) as [[wb|e] s4].
Qed.

Lemma topics_stay_well_formed_witness :
  @topics_ok example_voikko stub_str
    (@find_topic_word example_voikko stub_str example_sklearn stub_numpy
       dog_texts 0 new_topics).2
  ∧ ((∀ src tk, @tokenizer_ok example_voikko stub_str tk →
                @tokenizer_ok example_voikko stub_str
                  (@transform_mean example_sklearn src tk).2) →
     @topics_ok example_voikko stub_str
       (@compare_series example_voikko stub_str example_sklearn stub_numpy
          (Some <$> dog_texts) (Some <$> cat_texts) new_topics).2).
Proof.
  apply (@topics_stay_well_formed example_voikko stub_str example_sklearn stub_numpy
           (Some <$> dog_texts) (Some <$> cat_texts) dog_texts 0 new_topics).
  apply new_topics_ok.
Defined.

(** X14.  A word that [find_topic_word] computes is a noun (some analysis
    has class "nimi" or "nimisana") and is a token of the collection or a
    word of the model's vocabulary; the selector never invents a word. *)
Theorem find_topic_word_is_known_noun
    {voikko : Voikko} {pystr : PyStr} {sklearn : Sklearn} {numpy : Numpy}
    text topic_id self word :
  sorts_descending →
  topics_ok self →
  find_topic_word_cache self !! (text, topic_id) = None →
  (find_topic_word text topic_id self).1 = Ok word →
  suitable word = true
  ∧ (word ∈ (tokenize (join_paragraphs text) (_tokenizer self)).1
     ∨ word ∈ get_feature_names).
Proof.
  intros Hsort Hok E Hword.
  destruct (topic_words topic_id) as [words|] eqn:Hw.
  2:{ rewrite (find_topic_word_no_topic text topic_id self E Hw) in Hword. done. }
  pose proof (find_topic_word_walks text topic_id self words Hok E Hw) as Hwalk.
  rewrite Hword in Hwalk.
  destruct Hwalk as (before & score & after & Hsplit & _ & Hsuit).
  split; [done|].
  assert ((word, score) ∈ topic_word_walk text words self) as Hin.
  { rewrite Hsplit. apply elem_of_app. right. by left. }
  apply (topic_word_walk_rows text words self word score Hsort) in Hin.
  rewrite combined_scores_lookup in Hin.
  destruct (value_counts (tokenize (join_paragraphs text) (_tokenizer self)).1 !! word)
    as [n|] eqn:En.
  - left. apply value_counts_lookup. by rewrite En.
  - right. destruct (words !! word) as [rel|] eqn:Er; [|done].
    apply (topic_words_keys topic_id words word Hw). by rewrite Er.
Qed.

Lemma find_topic_word_is_known_noun_witness :
  @suitable example_voikko "koira" = true
  ∧ ("koira" ∈ (@tokenize example_voikko stub_str (join_paragraphs dog_texts)
                  (_tokenizer new_topics)).1
     ∨ "koira" ∈ @get_feature_names example_sklearn).
Proof.
  apply (@find_topic_word_is_known_noun example_voikko stub_str example_sklearn
           stub_numpy dog_texts 0 new_topics "koira").
  - apply insertion_sort_sorts.
  - apply new_topics_ok.
  - reflexivity.
  - vm_compute. reflexivity.
Defined.

(** X15.  The relevancy table of a topic has exactly the vocabulary as its
    keys, for a fitted model (rectangular matrix, vocabulary without
    repetition).  A topic id past the last row is an index error:
    [topic_words] fails, and so does an uncached [find_topic_word]. *)
Theorem topic_words_keys_are_vocabulary
    {voikko : Voikko} {pystr : PyStr} {sklearn : Sklearn} {numpy : Numpy} id :
  argsort_permutes →
  model_ok →
  (id < length components_ →
   ∃ words, topic_words id = Some words
            ∧ dom words = list_to_set get_feature_names)
  ∧ (length components_ ≤ id →
     topic_words id = None
     ∧ ∀ text self,
         find_topic_word_cache self !! (text, id) = None →
         (find_topic_word text id self).1 = Raise IndexError).
Proof.
  intros Hsort Hmodel. split.
  - intros Hid. apply lookup_lt_is_Some in Hid as [row Hrow].
    unfold topic_words, vector_words. rewrite Hrow. cbn [mbind option_bind].
    assert (length row = length get_feature_names) as Hlen.
    { destruct Hmodel as (_ & Hshape & _). rewrite Forall_forall in Hshape.
      apply Hshape. by eapply list_elem_of_lookup_2. }
    assert (∀ i, i ∈ reverse (argsort row) ↔ i < length get_feature_names) as Hperm.
    { intros i. rewrite elem_of_reverse, (Hsort row), list_elem_of_In, in_seq, Hlen. lia. }
    destruct (topic_words_fold id row (reverse (argsort row)) ∅ Hmodel Hrow)
      as (m & Hm & Hin & Hout).
    { apply Forall_forall. intros i Hi. by apply Hperm. }
    exists m. split; [done|]. apply set_eq. intros w.
    rewrite elem_of_dom, elem_of_list_to_set. split.
    + intros Hw. destruct (topic_words_step_keys id _ _ _ w Hm Hw)
        as [(a & [= <-] & Ha)|?]; [|done].
      rewrite lookup_empty in Ha. by destruct Ha.
    + intros Hw. apply list_elem_of_lookup in Hw as [wid Hwid].
      rewrite (Hin wid w); [by eexists| |done].
      apply Hperm. by eapply lookup_lt_Some.
  - intros Hid. pose proof (topic_words_out_of_range id Hid) as Hnone.
    split; [done|]. intros text self E.
    by apply find_topic_word_no_topic.
Qed.

Lemma topic_words_keys_are_vocabulary_witness :
  (1 < length (@components_ example_sklearn) →
   ∃ words, @topic_words example_sklearn stub_numpy 1 = Some words
            ∧ dom words = list_to_set (@get_feature_names example_sklearn))
  ∧ (length (@components_ example_sklearn) ≤ 1 →
     @topic_words example_sklearn stub_numpy 1 = None
     ∧ ∀ text self,
         find_topic_word_cache self !! (text, 1) = None →
         (@find_topic_word example_voikko stub_str example_sklearn stub_numpy
            text 1 self).1 = Raise IndexError).
Proof.
  apply (@topic_words_keys_are_vocabulary example_voikko stub_str example_sklearn
           stub_numpy 1).
  - apply insertion_argsort_permutes.
  - split_and!.
    + apply (bool_decide_unpack _). vm_compute. exact I.
    + repeat constructor.
    + repeat constructor; vm_compute; discriminate.
Defined.

(** X16.  The topic ids [compare_series] returns are valid topic indexes:
    each is smaller than the number of entries of both mean mixtures, which
    the call leaves in the memo of [_get_topics].  The words it returns are
    the answers of [find_topic_word] for (source, first id) and (target,
    second id): they are in its memo afterwards, and asking for them again
    returns them and changes nothing. *)
Theorem compare_series_ids_in_range
    {voikko : Voikko} {pystr : PyStr} {sklearn : Sklearn} {numpy : Numpy}
    source target self topic_max word_max topic_min word_min self' :
  compare_series source target self
  = (Ok ((topic_max, word_max), (topic_min, word_min)), self') →
  ∃ source_topics target_topics,
    _get_topics_cache self' !! dropna source = Some source_topics
    ∧ _get_topics_cache self' !! dropna target = Some target_topics
    ∧ topic_max < length source_topics ∧ topic_max < length target_topics
    ∧ topic_min < length source_topics ∧ topic_min < length target_topics
    ∧ find_topic_word (dropna source) topic_max self' = (Ok word_max, self')
    ∧ find_topic_word (dropna target) topic_min self' = (Ok word_min, self').
Proof.
  unfold compare_series.
  pose proof (_get_topics_post (dropna source) self) as [HA1 HA2].
  destruct (_get_topics (dropna source) self) as [ta s1]. cbn [fst snd] in HA1, HA2.
  pose proof (_get_topics_post (dropna target) s1) as [HB1 HB2].
  destruct (_get_topics (dropna target) s1) as [tb s2]. cbn [fst snd] in HB1, HB2.
  destruct (np_argmax (zip_with Qminus ta tb)) as [tmax|] eqn:Emax; [|by intros [=]].
  destruct (np_argmin (zip_with Qminus ta tb)) as [tmin|] eqn:Emin; [|by intros [=]].
  destruct (find_topic_word (dropna source) tmax s2) as [[wa|e] s3] eqn:E1;
    [|by intros [=]].
  destruct (find_topic_word (dropna target) tmin s3) as [[wb|e] s4] eqn:E2;
    [|by intros [=]].
  intros [= <- <- <- <- <-].
  apply find_topic_word_post in E1 as (C1 & _ & G1).
  apply find_topic_word_post in E2 as (C2 & S2 & G2).
  apply np_argmax_spec in Emax as (hi & Hhi & _).
  apply np_argmin_spec in Emin as (lo & Hlo & _).
  apply lookup_lt_Some in Hhi, Hlo. rewrite length_zip_with in Hhi, Hlo.
  exists ta, tb. split_and!; try lia.
  - rewrite G2, G1. by eapply lookup_weaken.
  - by rewrite G2, G1.
  - apply find_topic_word_hit. by eapply lookup_weaken.
  - by apply find_topic_word_hit.
Qed.

Lemma compare_series_ids_in_range_witness :
  let first := @compare_series example_voikko stub_str example_sklearn stub_numpy
                 (Some <$> dog_texts) (Some <$> cat_texts) new_topics in
  ∃ source_topics target_topics,
    _get_topics_cache first.2 !! dropna (Some <$> dog_texts) = Some source_topics
    ∧ _get_topics_cache first.2 !! dropna (Some <$> cat_texts) = Some target_topics
    ∧ 0 < length source_topics ∧ 0 < length target_topics
    ∧ 2 < length source_topics ∧ 2 < length target_topics
    ∧ @find_topic_word example_voikko stub_str example_sklearn stub_numpy
        (dropna (Some <$> dog_texts)) 0 first.2 = (Ok "koira", first.2)
    ∧ @find_topic_word example_voikko stub_str example_sklearn stub_numpy
        (dropna (Some <$> cat_texts)) 2 first.2 = (Ok "kissa", first.2).
Proof.
  apply (@compare_series_ids_in_range example_voikko stub_str example_sklearn stub_numpy
           (Some <$> dog_texts) (Some <$> cat_texts) new_topics
           0 "koira" 2 "kissa").
  vm_compute. reflexivity.
Defined.

(** X17.  Comparing a collection with itself: when [compare_series]
    returns, both topic ids are 0 (every difference is zero and ties go to
    the first index) and both words are the same. *)
Theorem compare_series_with_itself
    {voikko : Voikko} {pystr : PyStr} {sklearn : Sklearn} {numpy : Numpy}
    source self r self' :
  compare_series source source self = (Ok r, self') →
  r.1 = r.2 ∧ r.1.1 = 0.
Proof.
  unfold compare_series.
  pose proof (_get_topics_post (dropna source) self) as [HA1 _].
  destruct (_get_topics (dropna source) self) as [ta s1]. cbn [fst snd] in HA1.
  rewrite (_get_topics_hit (dropna source) s1 ta HA1).
  destruct ta as [|x ta]; [by intros [=]|].
  destruct (np_arg_self (x :: ta)) as [-> ->]; [done|].
  destruct (find_topic_word (dropna source) 0 s1) as [[wa|e] s3] eqn:E1;
    [|by intros [=]].
  apply find_topic_word_post in E1 as (C1 & _ & _).
  rewrite (find_topic_word_hit (dropna source) 0 s3 wa C1).
  by intros [= <- <-].
Qed.

Lemma compare_series_with_itself_witness :
  let first := @compare_series example_voikko stub_str example_sklearn stub_numpy
                 (Some <$> dog_texts) (Some <$> dog_texts) new_topics in
  first.1 = Ok ((0, "koira"), (0, "koira"))
  ∧ ((0, "koira") = (0, "koira") ∧ 0 = 0).
Proof.
  split; [vm_compute; reflexivity|].
  apply (@compare_series_with_itself example_voikko stub_str example_sklearn stub_numpy
           (Some <$> dog_texts) new_topics ((0, "koira"), (0, "koira"))
           (@compare_series example_voikko stub_str example_sklearn stub_numpy
              (Some <$> dog_texts) (Some <$> dog_texts) new_topics).2).
  vm_compute. reflexivity.
Defined.
